(** * wesplit: the settlement computations of [convex/balances.ts]

    A shallow embedding of the handlers of [balances.ts]
    ([calculateExpenseSplit], [getMemberBalances], [getDetailedDebts],
    [getOptimizedSettlements], [getMemberExpenseBreakdown],
    [getGroupSummary]) and of the mutation [createEqual] of [expenses.ts],
    as functions of the collections the handlers read from the store, and
    the properties of them that the design document states or that the code
    shows.

    Numbers.  The source computes on JavaScript numbers, which are IEEE
    doubles.  The model keeps the three special values ([Infinity],
    [-Infinity], [NaN]) with their arithmetic and their comparisons, and
    takes a finite number to be a rational in canonical form ([Qc]) with
    exact operations.  Rounding error, overflow of a finite result to an
    infinity and the sign of zero are therefore not represented.  The
    properties below are chosen not to depend on them: they rest on the
    structure of the handlers, on the special values, on comparisons and
    signs, on [x - x = 0] and [x + (-x) = 0], and on the monotonicity of the
    rounding to cents.

    Identities.  A document id is a JavaScript string, modelled as [string].

    Loops.  The [while] loop of [getOptimizedSettlements] is run with fuel;
    a run that is out of fuel returns [None]. *)

From Stdlib Require Import Ascii QArith Qcanon Qround Lqa.
From stdpp Require Import numbers strings list fin_maps gmap.

Local Open Scope string_scope.
Local Open Scope list_scope.

(** ** JavaScript numbers *)

Module JsNumber.

Inductive number : Type :=
| Fin (q : Qc)
| PosInf
| NegInf
| NaN.

#[global] Instance number_eq_dec : EqDecision number.
Proof. solve_decision. Defined.

#[global] Instance number_inhabited : Inhabited number := populate NaN.

Definition of_Z (z : Z) : number := Fin (Qc_of_Z z).

(** [xs.length] as a number. *)
Definition of_nat (n : nat) : number := of_Z (Z.of_nat n).

(** The literal [0.01]. *)
Definition cent : number := Fin (Q2Qc (1 # 100)).

Definition zero : number := of_Z 0.
Definition hundred : number := of_Z 100.

Definition is_finite (x : number) : Prop :=
  match x with Fin _ => True | _ => False end.

#[global] Instance is_finite_dec x : Decision (is_finite x).
Proof. destruct x; simpl; apply _. Defined.

Definition isNaN (x : number) : bool :=
  match x with NaN => true | _ => false end.

(** Unary minus. *)
Definition neg (x : number) : number :=
  match x with
  | Fin q => Fin (- q)
  | PosInf => NegInf
  | NegInf => PosInf
  | NaN => NaN
  end.

(** [x + y], exact on finite numbers. *)
Definition add (x y : number) : number :=
  match x, y with
  | NaN, _ | _, NaN => NaN
  | Fin a, Fin b => Fin (a + b)
  | PosInf, NegInf | NegInf, PosInf => NaN
  | PosInf, _ | _, PosInf => PosInf
  | NegInf, _ | _, NegInf => NegInf
  end.

(** [x - y] *)
Definition sub (x y : number) : number := add x (neg y).

(** The sign of a number that is not [NaN]; zero counts as [Eq]. *)
Definition sign (x : number) : option comparison :=
  match x with
  | Fin q => Some (q ?= 0)%Qc
  | PosInf => Some Gt
  | NegInf => Some Lt
  | NaN => None
  end.

Definition signed_inf (s : comparison) : number :=
  match s with Gt => PosInf | Lt => NegInf | Eq => NaN end.

Definition sign_mul (s t : comparison) : comparison :=
  match s, t with
  | Eq, _ | _, Eq => Eq
  | Gt, Gt | Lt, Lt => Gt
  | Gt, Lt | Lt, Gt => Lt
  end.

(** [x * y], exact on finite numbers: an infinity times zero is [NaN]. *)
Definition mul (x y : number) : number :=
  match x, y with
  | Fin a, Fin b => Fin (a * b)
  | _, _ =>
      match sign x, sign y with
      | Some s, Some t => signed_inf (sign_mul s t)
      | _, _ => NaN
      end
  end.

(** [x / y], exact on finite numbers with a nonzero divisor: a finite
    nonzero number over zero is an infinity of its sign,
    [0 / 0] is [NaN], a finite number over an infinity is zero.  Every
    divisor in the source is a length, a count or the literal 100, so a
    zero divisor is the positive zero. *)
Definition div (x y : number) : number :=
  match x, y with
  | NaN, _ | _, NaN => NaN
  | Fin a, Fin b =>
      if bool_decide (b = 0%Qc) then signed_inf (a ?= 0)%Qc
      else Fin (a / b)
  | Fin _, _ => zero
  | _, Fin b =>
      match sign x with
      | Some s => signed_inf (sign_mul s (if bool_decide (b < 0)%Qc then Lt else Gt))
      | None => NaN
      end
  | _, _ => NaN
  end.

(** [x < y]; every comparison with [NaN] is false. *)
Definition lt (x y : number) : bool :=
  match x, y with
  | NaN, _ | _, NaN => false
  | Fin a, Fin b => bool_decide (a < b)%Qc
  | NegInf, NegInf => false
  | NegInf, _ => true
  | _, NegInf => false
  | PosInf, _ => false
  | Fin _, PosInf => true
  end.

(** [x > y] *)
Definition gt (x y : number) : bool := lt y x.

(** [x <= y] *)
Definition le (x y : number) : bool :=
  match x, y with
  | NaN, _ | _, NaN => false
  | _, _ => negb (lt y x)
  end.

(** [Math.abs] *)
Definition abs (x : number) : number :=
  match x with
  | Fin q => if bool_decide (q < 0)%Qc then Fin (- q) else Fin q
  | PosInf | NegInf => PosInf
  | NaN => NaN
  end.

(** [Math.min] of two arguments: [NaN] if either is. *)
Definition min (x y : number) : number :=
  match x, y with
  | NaN, _ | _, NaN => NaN
  | _, _ => if lt y x then y else x
  end.

(** [Math.round]: the nearest integer, a tie going up. *)
Definition round (x : number) : number :=
  match x with
  | Fin q => of_Z (Qfloor (this q + (1 # 2)))
  | _ => x
  end.

(** [Math.round(x * 100) / 100], as the source writes it three times. *)
Definition round2 (x : number) : number := div (round (mul x hundred)) hundred.

(** [ToNumber] of a property read that may be [undefined]. *)
Definition of_property (o : option number) : number := default NaN o.

End JsNumber.

Import JsNumber.

Declare Scope js_scope.
Delimit Scope js_scope with js.
Bind Scope js_scope with number.
Infix "+" := add : js_scope.
Infix "-" := sub : js_scope.
Infix "*" := mul : js_scope.
Infix "/" := div : js_scope.
Notation "- x" := (neg x) : js_scope.
Infix "<?" := lt : js_scope.
Infix ">?" := gt (at level 70) : js_scope.
Infix "<=?" := le : js_scope.

(** ** The documents read from the store *)

Module Member.
Record t : Type := mk { _id : string; name : string; isActive : bool }.
#[global] Instance eq_dec : EqDecision t.
Proof. solve_decision. Defined.
End Member.

Module SplitDetail.
Record t : Type := mk { memberId : string; value : number }.
#[global] Instance eq_dec : EqDecision t.
Proof. solve_decision. Defined.
End SplitDetail.

Module Expense.
(** [splitType] is the string the [switch] of [calculateExpenseSplit]
    inspects; [splitDetails] and [category] are optional fields. *)
Record t : Type := mk {
  amount : number;
  paidBy : string;
  splitAmong : list string;
  splitType : string;
  splitDetails : option (list SplitDetail.t);
  category : option string
}.
End Expense.

Module Settlement.
Record t : Type := mk { fromMember : string; toMember : string; amount : number }.
End Settlement.

(** ** [calculateExpenseSplit] *)

(** [xs.includes(x)] on an array of ids. *)
Definition includes (xs : list string) (x : string) : bool := bool_decide (x ∈ xs).

(** [details?.find((d) => d.memberId === memberId)] *)
Definition findDetail (details : option (list SplitDetail.t)) (memberId : string)
  : option SplitDetail.t :=
  details ≫= List.find (λ d, bool_decide (SplitDetail.memberId d = memberId)).

Definition calculateExpenseSplit (expense : Expense.t) (memberId : string) : number :=
  if negb (includes (Expense.splitAmong expense) memberId) then zero
  else if String.eqb (Expense.splitType expense) "equal" then
    (Expense.amount expense / of_nat (length (Expense.splitAmong expense)))%js
  else if String.eqb (Expense.splitType expense) "exact" then
    match findDetail (Expense.splitDetails expense) memberId with
    | Some exactDetail => SplitDetail.value exactDetail
    | None => zero
    end
  else if String.eqb (Expense.splitType expense) "percentage" then
    match findDetail (Expense.splitDetails expense) memberId with
    | Some percentDetail =>
        (Expense.amount expense * SplitDetail.value percentDetail / hundred)%js
    | None => zero
    end
  else zero.

(** ** [getMemberBalances] *)

Module MemberBalance.
Record t : Type := mk {
  memberId : string;
  memberName : string;
  totalPaid : number;
  totalOwes : number;
  balance : number
}.
#[global] Instance eq_dec : EqDecision t.
Proof. solve_decision. Defined.
End MemberBalance.

(** The two accumulators [totalPaid] and [totalOwes] after the loop over the
    expenses and then the loop over the settlements. *)
Definition memberTotals (expenses : list Expense.t) (settlements : list Settlement.t)
    (memberId : string) : number * number :=
  let afterExpenses :=
    fold_left
      (λ '(totalPaid, totalOwes) expense,
         (if bool_decide (Expense.paidBy expense = memberId)
          then (totalPaid + Expense.amount expense)%js else totalPaid,
          (totalOwes + calculateExpenseSplit expense memberId)%js))
      expenses (zero, zero) in
  fold_left
    (λ '(totalPaid, totalOwes) settlement,
       (if bool_decide (Settlement.fromMember settlement = memberId)
        then (totalPaid + Settlement.amount settlement)%js else totalPaid,
        if bool_decide (Settlement.toMember settlement = memberId)
        then (totalOwes + Settlement.amount settlement)%js else totalOwes))
    settlements afterExpenses.

Definition getMemberBalances (members : list Member.t) (expenses : list Expense.t)
    (settlements : list Settlement.t) : list MemberBalance.t :=
  map
    (λ member,
       let '(totalPaid, totalOwes) :=
         memberTotals expenses settlements (Member._id member) in
       MemberBalance.mk (Member._id member) (Member.name member)
         totalPaid totalOwes (totalPaid - totalOwes)%js)
    members.

(** ** Completions: a handler returns or throws *)

Inductive jsError : Type :=
| TypeError
| Error (message : string).

Inductive completion (A : Type) : Type :=
| Normal (a : A)
| Throw (e : jsError).
Arguments Normal {A} a.
Arguments Throw {A} e.

Definition cbind {A B : Type} (c : completion A) (k : A → completion B) : completion B :=
  match c with
  | Normal a => k a
  | Throw e => Throw e
  end.

#[global] Instance completion_ret : MRet completion := λ A a, Normal a.
#[global] Instance completion_bind : MBind completion := λ A B k c, cbind c k.

(** A [for ... of] loop whose body may throw. *)
Fixpoint forEach {A S : Type} (body : S → A → completion S) (xs : list A) (s : S)
  : completion S :=
  match xs with
  | [] => Normal s
  | x :: xs' => s' ← body s x ; forEach body xs' s'
  end.

(** ** [getDetailedDebts] *)

Module Debt.
(** The shape of an entry of [simplifiedDebts] and of
    [suggestedSettlements]. *)
Record t : Type := mk {
  from : string;
  fromName : string;
  to : string;
  toName : string;
  amount : number
}.
#[global] Instance eq_dec : EqDecision t.
Proof. solve_decision. Defined.
End Debt.

(** [debts : Record<string, Record<string, number>>] *)
Abbreviation debtMatrix := (gmap string (gmap string number)).

(** The initialisation loop: a fresh row per member, a zero per pair. *)
Definition initDebts (members : list Member.t) : debtMatrix :=
  fold_left
    (λ (debts : debtMatrix) member,
       <[Member._id member :=
           fold_left (λ (row : gmap string number) other, <[Member._id other := zero]> row)
             members ∅]> debts)
    members ∅.

(** The names of the properties a plain object inherits from
    [Object.prototype]. *)
Definition inheritedKey (key : string) : bool :=
  bool_decide
    (key ∈ ["constructor"; "hasOwnProperty"; "isPrototypeOf"; "propertyIsEnumerable";
            "toLocaleString"; "toString"; "valueOf"; "__proto__";
            "__defineGetter__"; "__defineSetter__"; "__lookupGetter__";
            "__lookupSetter__"]).

(** [debts[a][b] = f(debts[a][b])].  [debts] is a plain object with a row
    per member.  For a key [a] without a row, [debts[a]] is [undefined] and
    reading its property throws; unless [a] names a property inherited from
    [Object.prototype], in which case the assignment lands on the inherited
    value and leaves the rows of [debts] as they were.  A missing
    [debts[a][b]] reads as [undefined]; such an entry is never read back by
    the simplification, which reads the entries of pairs of members. *)
Definition updateDebt (f : number → number) (a b : string) (debts : debtMatrix)
  : completion debtMatrix :=
  match debts !! a with
  | Some row => Normal (<[a := <[b := f (of_property (row !! b))]> row]> debts)
  | None => if inheritedKey a then Normal debts else Throw TypeError
  end.

(** [debts[a][b]] *)
Definition readDebt (debts : debtMatrix) (a b : string) : completion (option number) :=
  match debts !! a with
  | Some row => Normal (row !! b)
  | None => if inheritedKey a then Normal None else Throw TypeError
  end.

Definition addExpenseDebts (debts : debtMatrix) (expense : Expense.t)
  : completion debtMatrix :=
  let payerId := Expense.paidBy expense in
  forEach
    (λ debts memberId,
       if bool_decide (memberId ≠ payerId) then
         let owedAmount := calculateExpenseSplit expense memberId in
         updateDebt (λ v, v + owedAmount)%js memberId payerId debts
       else Normal debts)
    (Expense.splitAmong expense) debts.

Definition subtractSettlement (debts : debtMatrix) (settlement : Settlement.t)
  : completion debtMatrix :=
  updateDebt (λ v, v - Settlement.amount settlement)%js
    (Settlement.fromMember settlement) (Settlement.toMember settlement) debts.

(** [[a, b].sort().join("-")] *)
Definition pairKey (a b : string) : string :=
  if String.leb a b then a +:+ "-" +:+ b else b +:+ "-" +:+ a.

(** The body of the inner loop of the simplification; the state is the
    [processed] set and the [simplifiedDebts] pushed so far. *)
Definition simplifyPair (debts : debtMatrix) (debtor creditor : Member.t)
    (st : gset string * list Debt.t) : completion (gset string * list Debt.t) :=
  let '(processed, simplifiedDebts) := st in
  if bool_decide (Member._id debtor = Member._id creditor) then Normal st
  else
    let key := pairKey (Member._id debtor) (Member._id creditor) in
    if bool_decide (key ∈ processed) then Normal st
    else
      let processed := {[ key ]} ∪ processed in
      debtorOwes ← readDebt debts (Member._id debtor) (Member._id creditor) ;
      creditorOwes ← readDebt debts (Member._id creditor) (Member._id debtor) ;
      let netDebt := (of_property debtorOwes - of_property creditorOwes)%js in
      if (abs netDebt >? cent)%js then
        if (netDebt >? zero)%js then
          Normal (processed,
                  simplifiedDebts ++
                  [Debt.mk (Member._id debtor) (Member.name debtor)
                     (Member._id creditor) (Member.name creditor)
                     (round2 netDebt)])
        else
          Normal (processed,
                  simplifiedDebts ++
                  [Debt.mk (Member._id creditor) (Member.name creditor)
                     (Member._id debtor) (Member.name debtor)
                     (round2 (- netDebt))])
      else Normal (processed, simplifiedDebts).

Definition simplifyDebts (debts : debtMatrix) (members : list Member.t)
  : completion (list Debt.t) :=
  st ← forEach
         (λ st debtor, forEach (λ st creditor, simplifyPair debts debtor creditor st) members st)
         members (∅, []) ;
  Normal (snd st).

Definition computeDebts (members : list Member.t) (expenses : list Expense.t)
    (settlements : list Settlement.t) : completion debtMatrix :=
  debts ← forEach addExpenseDebts expenses (initDebts members) ;
  forEach subtractSettlement settlements debts.

Definition getDetailedDebts (members : list Member.t) (expenses : list Expense.t)
    (settlements : list Settlement.t) : completion (list Debt.t) :=
  debts ← computeDebts members expenses settlements ;
  simplifyDebts debts members.

(** ** [getOptimizedSettlements] *)

Module NetBalance.
Record t : Type := mk { memberId : string; name : string; balance : number }.
#[global] Instance eq_dec : EqDecision t.
Proof. solve_decision. Defined.
Definition setBalance (m : t) (b : number) : t := mk (memberId m) (name m) b.
End NetBalance.

(** The accumulator [balance] of one member after both inner loops. *)
Definition rawBalance (expenses : list Expense.t) (settlements : list Settlement.t)
    (memberId : string) : number :=
  let afterExpenses :=
    fold_left
      (λ balance expense,
         let balance :=
           if bool_decide (Expense.paidBy expense = memberId)
           then (balance + Expense.amount expense)%js else balance in
         (balance - calculateExpenseSplit expense memberId)%js)
      expenses zero in
  fold_left
    (λ balance settlement,
       let balance :=
         if bool_decide (Settlement.fromMember settlement = memberId)
         then (balance + Settlement.amount settlement)%js else balance in
       if bool_decide (Settlement.toMember settlement = memberId)
       then (balance - Settlement.amount settlement)%js else balance)
    settlements afterExpenses.

Definition netBalances (members : list Member.t) (expenses : list Expense.t)
    (settlements : list Settlement.t) : list NetBalance.t :=
  flat_map
    (λ member,
       let balance := rawBalance expenses settlements (Member._id member) in
       if (abs balance >? cent)%js
       then [NetBalance.mk (Member._id member) (Member.name member) (round2 balance)]
       else [])
    members.

(** [xs.sort(compare)]: the sort of an array is stable; [x] is placed after
    [y] when [compare(x, y) > 0]. *)
Fixpoint insertBy {A : Type} (compare : A → A → number) (x : A) (xs : list A) : list A :=
  match xs with
  | [] => [x]
  | y :: ys =>
      if (compare x y >? zero)%js then y :: insertBy compare x ys else x :: xs
  end.

Definition sortBy {A : Type} (compare : A → A → number) (xs : list A) : list A :=
  foldr (insertBy compare) [] xs.

Definition creditorsOf (nb : list NetBalance.t) : list NetBalance.t :=
  sortBy (λ a b, NetBalance.balance b - NetBalance.balance a)%js
    (List.filter (λ m, NetBalance.balance m >? zero)%js nb).

Definition debtorsOf (nb : list NetBalance.t) : list NetBalance.t :=
  sortBy (λ a b, NetBalance.balance a - NetBalance.balance b)%js
    (List.filter (λ m, NetBalance.balance m <? zero)%js nb).

(** The variables of the matching loop.  [creditors] and [debtors] hold
    distinct objects (no entry has a balance both above and below zero), so
    the assignment to [debtor.balance] changes entry [i] of [debtors] only,
    and likewise for [creditors]. *)
Record loopState : Type := mkLoop {
  debtors : list NetBalance.t;
  creditors : list NetBalance.t;
  i : nat;
  j : nat;
  suggestedSettlements : list Debt.t
}.

(** One iteration of the [while] loop; [None] when its condition is false. *)
Definition loopStep (st : loopState) : option loopState :=
  match debtors st !! i st, creditors st !! j st with
  | Some debtor, Some creditor =>
      let amount := min (- NetBalance.balance debtor)%js (NetBalance.balance creditor) in
      let suggested :=
        if (amount >? cent)%js then
          suggestedSettlements st ++
          [Debt.mk (NetBalance.memberId debtor) (NetBalance.name debtor)
             (NetBalance.memberId creditor) (NetBalance.name creditor)
             (round2 amount)]
        else suggestedSettlements st in
      let debtorBalance := (NetBalance.balance debtor + amount)%js in
      let creditorBalance := (NetBalance.balance creditor - amount)%js in
      Some (mkLoop
              (<[i st := NetBalance.setBalance debtor debtorBalance]> (debtors st))
              (<[j st := NetBalance.setBalance creditor creditorBalance]> (creditors st))
              (if (abs debtorBalance <? cent)%js then S (i st) else i st)
              (if (abs creditorBalance <? cent)%js then S (j st) else j st)
              suggested)
  | _, _ => None
  end.

(** The loop, run for at most [fuel] iterations: [None] when the loop is
    still running after them. *)
Fixpoint runLoop (fuel : nat) (st : loopState) : option (list Debt.t) :=
  match loopStep st with
  | None => Some (suggestedSettlements st)
  | Some st' =>
      match fuel with
      | O => None
      | S fuel' => runLoop fuel' st'
      end
  end.

Definition initLoop (nb : list NetBalance.t) : loopState :=
  mkLoop (debtorsOf nb) (creditorsOf nb) 0 0 [].

Definition getOptimizedSettlements (fuel : nat) (members : list Member.t)
    (expenses : list Expense.t) (settlements : list Settlement.t)
  : option (list Debt.t) :=
  runLoop fuel (initLoop (netBalances members expenses settlements)).

(** ** [getGroupSummary] *)

Module Group.
Record t : Type := mk { name : string }.
End Group.

Module GroupSummary.
(** The fields of the summary but [categoryBreakdown], which no property
    below reads. *)
Record t : Type := mk {
  groupName : string;
  memberCount : nat;
  totalMembers : nat;
  expenseCount : nat;
  totalExpenses : number;
  settlementCount : nat;
  totalSettled : number;
  averageExpense : number;
  perPersonAverage : number
}.
End GroupSummary.

(** [group] is the result of [ctx.db.get(args.groupId)]. *)
Definition getGroupSummary (group : option Group.t) (members : list Member.t)
    (expenses : list Expense.t) (settlements : list Settlement.t)
  : completion GroupSummary.t :=
  match group with
  | None => Throw (Error "Group not found")
  | Some group =>
      let totalExpenses :=
        fold_left (λ sum e, sum + Expense.amount e)%js expenses zero in
      let totalSettled :=
        fold_left (λ sum s, sum + Settlement.amount s)%js settlements zero in
      let activeCount := length (List.filter Member.isActive members) in
      Normal
        (GroupSummary.mk
           (Group.name group)
           activeCount
           (length members)
           (length expenses)
           totalExpenses
           (length settlements)
           totalSettled
           (if (0 <? length expenses)%nat
            then (totalExpenses / of_nat (length expenses))%js else zero)
           (if (0 <? length members)%nat
            then (totalExpenses / of_nat activeCount)%js else zero))
  end.

(** ** Well-formedness of the stored documents *)

(** A finite number that is not negative. *)
Definition finiteNonneg (x : number) : Prop :=
  match x with Fin q => (0 ≤ q)%Qc | _ => False end.

Definition detailsOf (expense : Expense.t) : list SplitDetail.t :=
  default [] (Expense.splitDetails expense).

(** The amount and every detail value are finite and not negative. *)
Definition nonnegExpense (expense : Expense.t) : Prop :=
  finiteNonneg (Expense.amount expense) ∧
  Forall (λ d, finiteNonneg (SplitDetail.value d)) (detailsOf expense).

Definition recognizedSplitType (tag : string) : Prop :=
  tag ∈ ["equal"; "exact"; "percentage"].

(** [d] is the entry that [find] returns for [memberId]: the first one in
    the detail list carrying that id. *)
Definition matchingDetail (expense : Expense.t) (memberId : string) (d : SplitDetail.t)
  : Prop :=
  ∃ before after,
    Expense.splitDetails expense = Some (before ++ d :: after) ∧
    SplitDetail.memberId d = memberId ∧
    Forall (λ d', SplitDetail.memberId d' ≠ memberId) before.

(** The detail list is missing or has no entry for [memberId]. *)
Definition noDetail (expense : Expense.t) (memberId : string) : Prop :=
  Forall (λ d', SplitDetail.memberId d' ≠ memberId) (detailsOf expense).

(** ** Sample documents *)

Module Sample.
Definition ann : Member.t := Member.mk "a1" "Ann" true.
Definition bob : Member.t := Member.mk "b2" "Bob" true.
Definition cyd : Member.t := Member.mk "c3" "Cyd" true.
Definition dee : Member.t := Member.mk "d4" "Dee" false.

(** 90 paid by Ann, split equally among the three. *)
Definition dinner : Expense.t :=
  Expense.mk (of_Z 90) "a1" ["a1"; "b2"; "c3"] "equal" None None.

(** 50 paid by Ann for Bob (30) and Cyd (20). *)
Definition tickets : Expense.t :=
  Expense.mk (of_Z 50) "a1" ["b2"; "c3"] "exact"
    (Some [SplitDetail.mk "b2" (of_Z 30); SplitDetail.mk "c3" (of_Z 20)]) None.

(** 200 paid by Bob, 25% Ann and 75% Cyd. *)
Definition hotel : Expense.t :=
  Expense.mk (of_Z 200) "b2" ["a1"; "c3"] "percentage"
    (Some [SplitDetail.mk "a1" (of_Z 25); SplitDetail.mk "c3" (of_Z 75)]) None.

(** A tag outside the three of the [switch]. *)
Definition byShares : Expense.t :=
  Expense.mk (of_Z 90) "a1" ["a1"; "b2"] "shares" None None.

(** An equal split among nobody. *)
Definition nobody : Expense.t :=
  Expense.mk (of_Z 90) "a1" [] "equal" None None.

(** Exact amounts 15 and -5 of a total of 10: they pass the check of
    [createExact], which compares their sum with the amount. *)
Definition refund : Expense.t :=
  Expense.mk (of_Z 10) "a1" ["a1"; "b2"] "exact"
    (Some [SplitDetail.mk "a1" (of_Z 15); SplitDetail.mk "b2" (of_Z (-5))]) None.

Definition bobPaysAnn : Settlement.t := Settlement.mk "b2" "a1" (of_Z 10).

(** A settlement whose payer is no longer a member. *)
Definition fromGone : Settlement.t := Settlement.mk "z9" "a1" (of_Z 10).

Definition trip : Group.t := Group.mk "Trip".

(** The plan that settles [tickets]. *)
Definition plan : list Debt.t :=
  [Debt.mk "b2" "Bob" "a1" "Ann" (of_Z 30); Debt.mk "c3" "Cyd" "a1" "Ann" (of_Z 20)].
End Sample.

(** ** Quantities of the matching loop *)

Definition idsOf (entries : list NetBalance.t) : list string :=
  NetBalance.memberId <$> entries.

(** The entries the two pointers have not passed yet. *)
Definition remaining (st : loopState) : nat :=
  (length (debtors st) - i st) + (length (creditors st) - j st).

Definition finiteBalances (entries : list NetBalance.t) : Prop :=
  Forall (λ m, is_finite (NetBalance.balance m)) entries.

(** An entry that owes a finite amount, and one that is owed a finite
    amount. *)
Definition inDebt (m : NetBalance.t) : Prop :=
  match NetBalance.balance m with Fin q => (q ≤ 0)%Qc | _ => False end.

Definition inCredit (m : NetBalance.t) : Prop :=
  match NetBalance.balance m with Fin q => (0 ≤ q)%Qc | _ => False end.

(** ** Quantities of the statements *)

(** A suggestion of the plan, recorded as a settlement. *)
Definition asSettlement (d : Debt.t) : Settlement.t :=
  Settlement.mk (Debt.from d) (Debt.to d) (Debt.amount d).

(** [|x| <= 0.01] *)
Definition withinCent (x : number) : Prop := (abs x <=? cent)%js = true.

Definition memberIds (members : list Member.t) : list string :=
  Member._id <$> members.

(** ** The debt matrix and its simplification in the words of the design *)

(** The definitions of this module do not come from the code: they follow
    the sentences of the design document on the matrix build and on the
    simplifier, and are what [getDetailedDebts] is compared with. *)
Module Design.

(** A mapping (debtor, creditor) -> number, every pair initialised to 0. *)
Definition matrix : Type := string → string → number.

Definition initial : matrix := λ _ _, zero.

(** [matrix[a][b] = f(matrix[a][b])] *)
Definition update (f : number → number) (a b : string) (M : matrix) : matrix :=
  λ x y, if bool_decide (x = a ∧ y = b) then f (M x y) else M x y.

(** "For each expense, for each participant p in splitAmong where
    p <> paidBy: matrix[p][paidBy] += shareOwed(expense, p).  For each
    settlement: matrix[fromMember][toMember] -= settlement.amount." *)
Definition buildDebtMatrix (expenses : list Expense.t) (settlements : list Settlement.t)
  : matrix :=
  let afterExpenses :=
    fold_left
      (λ M expense,
         fold_left
           (λ M p,
              if bool_decide (p ≠ Expense.paidBy expense)
              then update (λ v, v + calculateExpenseSplit expense p)%js
                     p (Expense.paidBy expense) M
              else M)
           (Expense.splitAmong expense) M)
      expenses initial in
  fold_left
    (λ M settlement,
       update (λ v, v - Settlement.amount settlement)%js
         (Settlement.fromMember settlement) (Settlement.toMember settlement) M)
    settlements afterExpenses.

(** [net = matrix[A][B] - matrix[B][A]] *)
Definition net (M : matrix) (a b : string) : number := (M a b - M b a)%js.

(** "If |net| <= 0.01, emit nothing.  Otherwise emit a single DirectedDebt:
    if net > 0, A owes B amount round2(net); else B owes A amount
    round2(-net)." *)
Definition netDebt (M : matrix) (A B : Member.t) : list Debt.t :=
  let net := net M (Member._id A) (Member._id B) in
  if (abs net <=? cent)%js then []
  else if (net >? zero)%js then
    [Debt.mk (Member._id A) (Member.name A) (Member._id B) (Member.name B) (round2 net)]
  else
    [Debt.mk (Member._id B) (Member.name B) (Member._id A) (Member.name A)
       (round2 (- net))].

(** Every unordered pair of entries of a list, once. *)
Fixpoint unorderedPairs {A : Type} (xs : list A) : list (A * A) :=
  match xs with
  | [] => []
  | x :: xs' => ((λ y, (x, y)) <$> xs') ++ unorderedPairs xs'
  end.

Definition simplify (M : matrix) (members : list Member.t) : list Debt.t :=
  flat_map (λ '(A, B), netDebt M A B) (unorderedPairs members).

(** The unordered pair of two ids, in sorted order. *)
Definition unordered (a b : string) : string * string :=
  if String.leb a b then (a, b) else (b, a).

Definition pairOf (d : Debt.t) : string * string :=
  unordered (Debt.from d) (Debt.to d).

End Design.

(** ** Inputs on which [getDetailedDebts] does not throw *)

(** No ['-'] in the id: the ids of the store are alphanumeric. *)
Fixpoint hyphenFree (s : string) : bool :=
  match s with
  | EmptyString => true
  | String c s' => negb (Ascii.eqb c "-"%char) && hyphenFree s'
  end.

(** Every participant other than the payer is a member. *)
Definition participantsResolve (ids : list string) (expense : Expense.t) : Prop :=
  Forall (λ p, p ≠ Expense.paidBy expense → p ∈ ids) (Expense.splitAmong expense).

#[global] Instance participantsResolve_dec ids expense :
  Decision (participantsResolve ids expense).
Proof. unfold participantsResolve. apply _. Defined.

(** The matrix has a row for the sender of the settlement. *)
Definition senderResolves (ids : list string) (settlement : Settlement.t) : Prop :=
  Settlement.fromMember settlement ∈ ids.

#[global] Instance senderResolves_dec ids settlement :
  Decision (senderResolves ids settlement).
Proof. unfold senderResolves. apply _. Defined.

(** [debts[key]] is defined: [key] is a member id or an inherited name. *)
Definition found (ids : list string) (key : string) : Prop :=
  key ∈ ids ∨ inheritedKey key = true.

#[global] Instance found_dec ids key : Decision (found ids key).
Proof. unfold found. apply _. Defined.

Definition participantsFound (ids : list string) (expense : Expense.t) : Prop :=
  Forall (λ p, p ≠ Expense.paidBy expense → found ids p) (Expense.splitAmong expense).

#[global] Instance participantsFound_dec ids expense :
  Decision (participantsFound ids expense).
Proof. unfold participantsFound. apply _. Defined.

Definition senderFound (ids : list string) (settlement : Settlement.t) : Prop :=
  found ids (Settlement.fromMember settlement).

#[global] Instance senderFound_dec ids settlement : Decision (senderFound ids settlement).
Proof. unfold senderFound. apply _. Defined.

(** A debt between two different members, of at least a cent. *)
Definition properDebt (members : list Member.t) (d : Debt.t) : Prop :=
  Debt.from d ∈ memberIds members ∧ Debt.to d ∈ memberIds members ∧
  Debt.from d ≠ Debt.to d ∧ (cent <=? Debt.amount d)%js = true.

(** The object [debts] holds the entry of [M] for every pair of members. *)
Definition represents (ids : list string) (debts : debtMatrix) (M : Design.matrix) : Prop :=
  ∀ a b, a ∈ ids → b ∈ ids →
    ∃ row, debts !! a = Some row ∧ row !! b = Some (M a b).

(** The keys under which the rows of the members of [pre] have been
    processed. *)
Definition processedAfter (pre members : list Member.t) (processed : gset string) : Prop :=
  ∀ key, key ∈ processed ↔
    ∃ x y, x ∈ pre ∧ y ∈ members ∧ Member._id x ≠ Member._id y ∧
           key = pairKey (Member._id x) (Member._id y).

(** ** [getMemberExpenseBreakdown] *)

Module Breakdown.
(** An entry of [owedExpenses]. *)
Record owed : Type := mkOwed { totalAmount : number; yourShare : number }.

(** The result; an entry of [paidExpenses] is given by its amount and an
    entry of [owedExpenses] by its two amounts ([description] and [date] are
    fields the model of an expense does not carry). *)
Record t : Type := mk {
  memberName : string;
  totalPaid : number;
  totalOwed : number;
  paidExpenses : list number;
  owedExpenses : list owed
}.
End Breakdown.

(** [member] is the result of [ctx.db.get(args.memberId)]. *)
Definition getMemberExpenseBreakdown (member : option Member.t)
    (expenses : list Expense.t) (memberId : string) : completion Breakdown.t :=
  match member with
  | None => Throw (Error "Member not found")
  | Some member =>
      let paidExpenses :=
        List.filter (λ e, bool_decide (Expense.paidBy e = memberId)) expenses in
      let owedExpenses :=
        List.filter (λ e, includes (Expense.splitAmong e) memberId) expenses in
      Normal
        (Breakdown.mk
           (Member.name member)
           (fold_left (λ sum e, sum + Expense.amount e)%js paidExpenses zero)
           (fold_left (λ sum e, sum + calculateExpenseSplit e memberId)%js
              owedExpenses zero)
           (map Expense.amount paidExpenses)
           (map (λ e, Breakdown.mkOwed (Expense.amount e)
                        (calculateExpenseSplit e memberId))
              owedExpenses))
  end.

(** ** The mutation [createEqual] of [expenses.ts]

    It returns the document it inserts (the fields the model of an expense
    carries); [group] is the result of [ctx.db.get(args.groupId)]. *)

Definition createEqual (group : option Group.t) (amount : number) (paidBy : string)
    (splitAmong : list string) (category : option string) : completion Expense.t :=
  match group with
  | None => Throw (Error "Group not found")
  | Some _ =>
      if (amount <=? zero)%js then Throw (Error "Amount must be positive")
      else if (length splitAmong =? 0)%nat
      then Throw (Error "Must split among at least one member")
      else Normal (Expense.mk amount paidBy splitAmong "equal" None category)
  end.

(** A loop state in which the balances under both pointers are [NaN]. *)
Definition stuck (st : loopState) : Prop :=
  ∃ debtor creditor,
    debtors st !! i st = Some debtor ∧ creditors st !! j st = Some creditor ∧
    NetBalance.balance debtor = NaN ∧ NetBalance.balance creditor = NaN.

Module SampleMore.
(** Infinity lent by Ann to Bob: [createEqual] accepts it, as
    [Infinity <= 0] is false. *)
Definition lent : Expense.t :=
  Expense.mk PosInf "a1" ["b2"] "equal" None None.
End SampleMore.


(** * Properties *)

(** Closed goals are decided by evaluation: equality of numbers is
    decidable, and [reflexivity] alone does not identify the canonicity
    proofs inside two equal [Qc]. *)
Ltac by_eval := apply (bool_decide_unpack _); vm_compute; exact I.

(** ** Arithmetic of finite numbers *)

Section Arithmetic.

Lemma is_finite_Fin (x : number) : is_finite x → ∃ q, x = Fin q.
Proof. destruct x; simpl; intros H; try done. by eexists. Qed.

Lemma Qc_of_Z_0 : Qc_of_Z 0 = 0%Qc.
Proof. by apply Qc_is_canon. Qed.

Lemma zero_Fin : zero = Fin 0%Qc.
Proof. unfold zero, of_Z. by rewrite Qc_of_Z_0. Qed.

Lemma Qc_of_Z_nonzero (z : Z) : z ≠ 0%Z → Qc_of_Z z ≠ 0%Qc.
Proof.
  intros Hz Heq. apply (f_equal this) in Heq. simpl in Heq.
  unfold inject_Z in Heq. injection Heq as Heq. done.
Qed.

Lemma Qc_of_Z_pos (z : Z) : (0 < z)%Z → (0 < Qc_of_Z z)%Qc.
Proof.
  intros Hz. unfold Qclt. simpl. unfold Qlt. simpl. lia.
Qed.

Lemma div_Fin_nonzero (a b : Qc) : b ≠ 0%Qc → (Fin a / Fin b)%js = Fin (a / b)%Qc.
Proof. intros Hb. simpl. by rewrite bool_decide_eq_false_2. Qed.

Lemma div_of_nat_pos (a : Qc) (n : nat) :
  (0 < n)%nat → (Fin a / of_nat n)%js = Fin (a / Qc_of_Z (Z.of_nat n))%Qc.
Proof.
  intros Hn. unfold of_nat, of_Z. apply div_Fin_nonzero, Qc_of_Z_nonzero. lia.
Qed.

Lemma div_hundred (a : Qc) : (Fin a / hundred)%js = Fin (a / Qc_of_Z 100)%Qc.
Proof. unfold hundred, of_Z. by apply div_Fin_nonzero, Qc_of_Z_nonzero. Qed.

End Arithmetic.

(** ** Rationals in canonical form *)

Section Canonical.

Lemma this_plus (x y : Qc) : (this (x + y)%Qc == this x + this y)%Q.
Proof. unfold Qcplus, Q2Qc. simpl. apply Qred_correct. Qed.

Lemma this_mult (x y : Qc) : (this (x * y)%Qc == this x * this y)%Q.
Proof. unfold Qcmult, Q2Qc. simpl. apply Qred_correct. Qed.

Lemma this_opp (x : Qc) : (this (- x)%Qc == - this x)%Q.
Proof. unfold Qcopp, Q2Qc. simpl. apply Qred_correct. Qed.

Lemma this_minus (x y : Qc) : (this (x - y)%Qc == this x - this y)%Q.
Proof. unfold Qcminus. rewrite this_plus, this_opp. reflexivity. Qed.

Lemma this_Q2Qc (q : Q) : (this (Q2Qc q) == q)%Q.
Proof. simpl. apply Qred_correct. Qed.

Lemma this_div_Z (x : Qc) (z : Z) :
  z ≠ 0%Z → (this (x / Qc_of_Z z)%Qc == this x / inject_Z z)%Q.
Proof.
  intros Hz. unfold Qcdiv, Qcinv. rewrite this_mult, this_Q2Qc. reflexivity.
Qed.

End Canonical.

(** Goals on the order of [Qc] are sent to [Q], where [lra] decides them. *)
Ltac qc_to_q :=
  repeat match goal with
  | H : @eq Qc ?x ?y |- _ =>
      let H' := fresh in
      assert (H' : (this x == this y)%Q) by (rewrite H; reflexivity); clear H
  | |- @eq Qc _ _ => apply Qc_is_canon
  end;
  unfold Qcle, Qclt in *;
  repeat (rewrite ?this_plus, ?this_minus, ?this_mult, ?this_opp, ?this_Q2Qc in * ).

(** ** [calculateExpenseSplit] *)

Section Split.

Implicit Types (expense : Expense.t) (memberId : string).

Lemma includes_true xs x : includes xs x = true ↔ x ∈ xs.
Proof. unfold includes. by rewrite bool_decide_eq_true. Qed.

Lemma includes_false xs x : includes xs x = false ↔ x ∉ xs.
Proof. unfold includes. by rewrite bool_decide_eq_false. Qed.

Lemma split_not_included expense memberId :
  memberId ∉ Expense.splitAmong expense → calculateExpenseSplit expense memberId = zero.
Proof.
  intros H. unfold calculateExpenseSplit.
  apply includes_false in H. by rewrite H.
Qed.

Lemma split_equal expense memberId :
  memberId ∈ Expense.splitAmong expense →
  Expense.splitType expense = "equal" →
  calculateExpenseSplit expense memberId =
    (Expense.amount expense / of_nat (length (Expense.splitAmong expense)))%js.
Proof.
  intros Hin Hty. unfold calculateExpenseSplit.
  apply includes_true in Hin. by rewrite Hin, Hty.
Qed.

Lemma split_exact expense memberId :
  memberId ∈ Expense.splitAmong expense →
  Expense.splitType expense = "exact" →
  calculateExpenseSplit expense memberId =
    match findDetail (Expense.splitDetails expense) memberId with
    | Some d => SplitDetail.value d
    | None => zero
    end.
Proof.
  intros Hin Hty. unfold calculateExpenseSplit.
  apply includes_true in Hin. by rewrite Hin, Hty.
Qed.

Lemma split_percentage expense memberId :
  memberId ∈ Expense.splitAmong expense →
  Expense.splitType expense = "percentage" →
  calculateExpenseSplit expense memberId =
    match findDetail (Expense.splitDetails expense) memberId with
    | Some d => (Expense.amount expense * SplitDetail.value d / hundred)%js
    | None => zero
    end.
Proof.
  intros Hin Hty. unfold calculateExpenseSplit.
  apply includes_true in Hin. by rewrite Hin, Hty.
Qed.

Lemma split_unrecognized expense memberId :
  ¬ recognizedSplitType (Expense.splitType expense) →
  calculateExpenseSplit expense memberId = zero.
Proof.
  intros Hty. unfold calculateExpenseSplit.
  destruct (negb _); [done|].
  destruct (String.eqb_spec (Expense.splitType expense) "equal") as [E|_].
  { destruct Hty. rewrite E. unfold recognizedSplitType. set_solver. }
  destruct (String.eqb_spec (Expense.splitType expense) "exact") as [E|_].
  { destruct Hty. rewrite E. unfold recognizedSplitType. set_solver. }
  destruct (String.eqb_spec (Expense.splitType expense) "percentage") as [E|_].
  { destruct Hty. rewrite E. unfold recognizedSplitType. set_solver. }
  done.
Qed.

(** [find] on a list that has the entry [d] first among those of the id. *)
Lemma find_first (before after : list SplitDetail.t) d memberId :
  SplitDetail.memberId d = memberId →
  Forall (λ d', SplitDetail.memberId d' ≠ memberId) before →
  List.find (λ d', bool_decide (SplitDetail.memberId d' = memberId))
    (before ++ d :: after) = Some d.
Proof.
  intros Hd. induction 1 as [|d' before Hd' _ IH]; simpl.
  - by rewrite bool_decide_eq_true_2.
  - by rewrite bool_decide_eq_false_2.
Qed.

Lemma find_none (details : list SplitDetail.t) memberId :
  Forall (λ d', SplitDetail.memberId d' ≠ memberId) details →
  List.find (λ d', bool_decide (SplitDetail.memberId d' = memberId)) details = None.
Proof.
  induction 1 as [|d' details Hd' _ IH]; simpl; [done|].
  by rewrite bool_decide_eq_false_2.
Qed.

Lemma findDetail_matching expense memberId d :
  matchingDetail expense memberId d →
  findDetail (Expense.splitDetails expense) memberId = Some d.
Proof.
  intros (before & after & -> & Hd & Hbefore). simpl.
  by apply find_first.
Qed.

Lemma findDetail_noDetail expense memberId :
  noDetail expense memberId →
  findDetail (Expense.splitDetails expense) memberId = None.
Proof.
  unfold noDetail, detailsOf. destruct (Expense.splitDetails expense); simpl; [|done].
  apply find_none.
Qed.

Lemma findDetail_elem_of expense memberId d :
  findDetail (Expense.splitDetails expense) memberId = Some d →
  d ∈ detailsOf expense ∧ SplitDetail.memberId d = memberId.
Proof.
  unfold detailsOf. destruct (Expense.splitDetails expense) as [details|]; simpl; [|done].
  intros H. apply find_some in H as [Hin Hd].
  split; [by apply list_elem_of_In | by apply bool_decide_eq_true in Hd].
Qed.

End Split.


Lemma equal_split_share_finite (expense : Expense.t) (memberId : string) :
  memberId ∈ Expense.splitAmong expense →
  Expense.splitType expense = "equal" →
  is_finite (Expense.amount expense) →
  is_finite (calculateExpenseSplit expense memberId).
Proof.
  intros Hin Hty Hfin. rewrite split_equal by done.
  apply is_finite_Fin in Hfin as [a ->].
  rewrite div_of_nat_pos; [done|].
  destruct (Expense.splitAmong expense); [by apply elem_of_nil in Hin | simpl; lia].
Qed.

Section SplitClaims.

Implicit Types (expense : Expense.t) (memberId : string).

(** C4, as stated, fails: for the expense [Sample.byShares], whose tag
    ["shares"] is none of the three, and its participant [b2], the function
    returns the number 0; it has no path that raises an error. *)
Lemma unrecognized_tag_returns_zero :
  ¬ recognizedSplitType (Expense.splitType Sample.byShares) ∧
  "b2" ∈ Expense.splitAmong Sample.byShares ∧
  calculateExpenseSplit Sample.byShares "b2" = zero.
Proof.
  split; [|split]; by_eval.
Qed.

(** C4, amended: for every expense whose split-type tag is not one of
    equal, exact or percentage, and every member, [calculateExpenseSplit]
    returns 0 (the [default] branch of its [switch]); no error is raised. *)
Theorem unrecognized_tag_defaults_to_zero expense memberId :
  ¬ recognizedSplitType (Expense.splitType expense) →
  calculateExpenseSplit expense memberId = zero.
Proof. apply split_unrecognized. Qed.

Lemma unrecognized_tag_defaults_to_zero_witness :
  ¬ recognizedSplitType (Expense.splitType Sample.byShares) ∧
  calculateExpenseSplit Sample.byShares "a1" = zero.
Proof.
  assert (H : ¬ recognizedSplitType (Expense.splitType Sample.byShares)) by by_eval.
  split; [exact H|].
  exact (unrecognized_tag_defaults_to_zero Sample.byShares "a1" H).
Defined.

(** C5, as stated, fails in its second half: for the equal-type expense
    [Sample.nobody], whose [splitAmong] is empty, the function returns the
    number 0 for a member. *)
Lemma empty_equal_split_returns_zero :
  Expense.splitType Sample.nobody = "equal" ∧
  Expense.splitAmong Sample.nobody = [] ∧
  calculateExpenseSplit Sample.nobody "a1" = zero.
Proof. split; [done|]. split; [done|]. by_eval. Qed.

(** C5, amended: for an equal-type expense and a member in [splitAmong] the
    result is [amount / |splitAmong|], a finite number when the amount is
    finite; for an equal-type expense whose [splitAmong] is empty the result
    is 0 for every member: the membership test comes before the division, so
    no division by zero takes place and no error is raised. *)
Theorem equal_split_share expense memberId :
  Expense.splitType expense = "equal" →
  (memberId ∈ Expense.splitAmong expense →
     calculateExpenseSplit expense memberId =
       (Expense.amount expense / of_nat (length (Expense.splitAmong expense)))%js ∧
     (is_finite (Expense.amount expense) →
        is_finite (calculateExpenseSplit expense memberId))) ∧
  (Expense.splitAmong expense = [] →
     calculateExpenseSplit expense memberId = zero).
Proof.
  intros Hty. split.
  - intros Hin. split; [by apply split_equal|].
    by apply equal_split_share_finite.
  - intros Hnil. apply split_not_included. rewrite Hnil. apply not_elem_of_nil.
Qed.

Lemma equal_split_share_witness :
  calculateExpenseSplit Sample.dinner "b2" = of_Z 30 ∧
  is_finite (calculateExpenseSplit Sample.dinner "b2").
Proof.
  assert (Hty : Expense.splitType Sample.dinner = "equal") by reflexivity.
  assert (Hin : "b2" ∈ Expense.splitAmong Sample.dinner) by by_eval.
  destruct (equal_split_share Sample.dinner "b2" Hty) as [Hshare _].
  destruct (Hshare Hin) as [Heq Hfin].
  split; [|exact (Hfin I)].
  rewrite Heq. by_eval.
Defined.

(** C6, as stated, fails: [Sample.refund] is an exact split whose detail for
    [b2] is -5, and the function returns -5 for [b2]. *)
Lemma negative_detail_gives_negative_share :
  recognizedSplitType (Expense.splitType Sample.refund) ∧
  calculateExpenseSplit Sample.refund "b2" = of_Z (-5) ∧
  (zero <=? calculateExpenseSplit Sample.refund "b2")%js = false.
Proof.
  split; [|split]; [by_eval | by_eval | by vm_compute].
Qed.

Lemma le_zero_zero : (zero <=? zero)%js = true.
Proof. by vm_compute. Qed.

Lemma finiteNonneg_le (x : number) : finiteNonneg x → (zero <=? x)%js = true.
Proof.
  rewrite zero_Fin. destruct x as [q| | |]; simpl; try done.
  intros Hq.
  apply negb_true_iff, bool_decide_eq_false_2. by apply Qcle_not_lt.
Qed.

Lemma le_zero_Fin (q : Qc) : (zero <=? Fin q)%js = true ↔ (0 ≤ q)%Qc.
Proof.
  rewrite zero_Fin. simpl. rewrite negb_true_iff, bool_decide_eq_false.
  split; [apply Qcnot_lt_le | apply Qcle_not_lt].
Qed.

Lemma Qcdiv_nonneg (a b : Qc) : (0 ≤ a)%Qc → (0 < b)%Qc → (0 ≤ a / b)%Qc.
Proof.
  intros Ha Hb. unfold Qcdiv.
  apply Qcmult_nonneg_nonneg; [done|].
  apply Qclt_le_weak, Qcinv_pos. done.
Qed.

(** A number that is not negative, finite or [Infinity], stays so when it
    is divided by a positive number. *)
Lemma div_pos_nonneg (x : number) (z : Z) :
  (0 < z)%Z → (zero <=? x)%js = true → (zero <=? x / of_Z z)%js = true.
Proof.
  intros Hz. destruct x as [a| | |]; try done.
  - rewrite le_zero_Fin. intros Ha. unfold of_Z.
    rewrite div_Fin_nonzero by (apply Qc_of_Z_nonzero; lia).
    apply le_zero_Fin, Qcdiv_nonneg; [done | by apply Qc_of_Z_pos].
  - intros _. unfold of_Z. cbn [div sign].
    rewrite bool_decide_eq_false_2; [done|].
    apply Qcle_not_lt, Qclt_le_weak. by apply Qc_of_Z_pos.
Qed.

(** The product of two finite numbers that are not negative is not
    negative. *)
Lemma mul_nonneg (x y : number) :
  finiteNonneg x → finiteNonneg y → (zero <=? x * y)%js = true.
Proof.
  destruct x as [a| | |], y as [b| | |]; try done. simpl.
  intros Ha Hb. apply le_zero_Fin. by apply Qcmult_nonneg_nonneg.
Qed.

(** The share is not negative when the amount and the detail values are
    finite and not negative. *)
Lemma split_nonneg expense memberId :
  nonnegExpense expense → (zero <=? calculateExpenseSplit expense memberId)%js = true.
Proof.
  intros [Hamount Hdetails].
  destruct (decide (memberId ∈ Expense.splitAmong expense)) as [Hin|Hout];
    [|rewrite split_not_included by done; apply le_zero_zero].
  destruct (decide (recognizedSplitType (Expense.splitType expense))) as [Hty|Hty];
    [|rewrite split_unrecognized by done; apply le_zero_zero].
  unfold recognizedSplitType in Hty.
  apply elem_of_cons in Hty as [Hty|Hty];
    [|apply elem_of_cons in Hty as [Hty|Hty];
      [|apply list_elem_of_singleton in Hty]].
  - rewrite split_equal by done. unfold of_nat.
    apply div_pos_nonneg; [|by apply finiteNonneg_le].
    destruct (Expense.splitAmong expense); [by apply elem_of_nil in Hin | simpl; lia].
  - rewrite split_exact by done.
    destruct (findDetail _ _) as [d|] eqn:Ed; [|apply le_zero_zero].
    apply findDetail_elem_of in Ed as [Hd _].
    rewrite Forall_forall in Hdetails. by apply finiteNonneg_le, Hdetails.
  - rewrite split_percentage by done.
    destruct (findDetail _ _) as [d|] eqn:Ed; [|apply le_zero_zero].
    apply findDetail_elem_of in Ed as [Hd _].
    rewrite Forall_forall in Hdetails.
    apply div_pos_nonneg; [done|]. apply mul_nonneg; [done | by apply Hdetails].
Qed.

(** C6, amended: for every expense whose amount and detail values are
    finite and not negative, and every member, the number
    [calculateExpenseSplit] returns is not negative ([0 <= share] holds; the
    share is [amount / n], a detail value, [amount * value / 100] or 0). *)
Theorem share_nonnegative expense memberId :
  nonnegExpense expense →
  (zero <=? calculateExpenseSplit expense memberId)%js = true.
Proof. apply split_nonneg. Qed.

Lemma share_nonnegative_witness :
  nonnegExpense Sample.hotel ∧
  calculateExpenseSplit Sample.hotel "c3" = of_Z 150 ∧
  (zero <=? calculateExpenseSplit Sample.hotel "c3")%js = true.
Proof.
  assert (H : nonnegExpense Sample.hotel).
  { split; [by vm_compute|]. unfold detailsOf. simpl. repeat constructor; by vm_compute. }
  split; [exact H|]. split; [by_eval|].
  exact (share_nonnegative Sample.hotel "c3" H).
Defined.

End SplitClaims.


Section SplitCases.

Implicit Types (expense : Expense.t) (memberId : string).

(** The two cases of the detail lookup cover every expense. *)
Lemma detail_cases expense memberId :
  (∃ d, matchingDetail expense memberId d) ∨ noDetail expense memberId.
Proof.
  unfold matchingDetail, noDetail, detailsOf.
  destruct (Expense.splitDetails expense) as [details|]; simpl; [|by right].
  induction details as [|d details IH]; [by right|].
  destruct (decide (SplitDetail.memberId d = memberId)) as [Hd|Hd].
  - left. exists d, [], details. by split; [|split].
  - destruct IH as [(d' & before & after & Heq & Hd' & Hbefore)|Hnone].
    + left. exists d', (d :: before), after.
      injection Heq as ->. split; [done|]. split; [done|]. by constructor.
    + right. by constructor.
Qed.

(** C7: if the member is not in [splitAmong] the share is 0; otherwise, for
    an exact split it is the value of the matching detail entry, and 0 if
    there is none; for a percentage split it is [amount * value / 100] for
    the matching detail entry, and 0 if there is none.  (The matching entry
    is the first one of the list for that member; by [detail_cases] there is
    one or there is none.) *)
Theorem share_case_analysis expense memberId :
  (memberId ∉ Expense.splitAmong expense →
     calculateExpenseSplit expense memberId = zero) ∧
  (memberId ∈ Expense.splitAmong expense →
   Expense.splitType expense = "exact" →
     (∀ d, matchingDetail expense memberId d →
           calculateExpenseSplit expense memberId = SplitDetail.value d) ∧
     (noDetail expense memberId →
           calculateExpenseSplit expense memberId = zero)) ∧
  (memberId ∈ Expense.splitAmong expense →
   Expense.splitType expense = "percentage" →
     (∀ d, matchingDetail expense memberId d →
           calculateExpenseSplit expense memberId =
             (Expense.amount expense * SplitDetail.value d / hundred)%js) ∧
     (noDetail expense memberId →
           calculateExpenseSplit expense memberId = zero)).
Proof.
  split; [apply split_not_included|]. split.
  - intros Hin Hty. rewrite split_exact by done. split.
    + intros d Hd. by rewrite (findDetail_matching _ _ _ Hd).
    + intros Hnone. by rewrite findDetail_noDetail.
  - intros Hin Hty. rewrite split_percentage by done. split.
    + intros d Hd. by rewrite (findDetail_matching _ _ _ Hd).
    + intros Hnone. by rewrite findDetail_noDetail.
Qed.

Lemma share_case_analysis_witness :
  calculateExpenseSplit Sample.tickets "a1" = zero ∧
  calculateExpenseSplit Sample.tickets "c3" = of_Z 20 ∧
  calculateExpenseSplit Sample.hotel "a1" = (of_Z 200 * of_Z 25 / hundred)%js.
Proof.
  destruct (share_case_analysis Sample.tickets "a1") as [Hout _].
  destruct (share_case_analysis Sample.tickets "c3") as (_ & Hexact & _).
  destruct (share_case_analysis Sample.hotel "a1") as (_ & _ & Hpercent).
  split; [|split].
  - apply Hout. by_eval.
  - apply (proj1 (Hexact ltac:(by_eval) eq_refl) (SplitDetail.mk "c3" (of_Z 20))).
    exists [SplitDetail.mk "b2" (of_Z 30)], []. split; [done|]. split; [done|].
    repeat constructor. by_eval.
  - apply (proj1 (Hpercent ltac:(by_eval) eq_refl) (SplitDetail.mk "a1" (of_Z 25))).
    exists [], [SplitDetail.mk "c3" (of_Z 75)]. split; [done|]. split; [done|].
    constructor.
Defined.

End SplitCases.

(** ** [getGroupSummary] *)

Section Summary.

(** The guard of [averageExpense] tests the divisor: with no expense the
    average is 0. *)
Lemma averageExpense_no_expense group members settlements summary :
  getGroupSummary (Some group) members [] settlements = Normal summary →
  GroupSummary.averageExpense summary = zero.
Proof. intros H. injection H as <-. done. Qed.

(** With no member at all the guard of [perPersonAverage] applies. *)
Lemma perPersonAverage_no_member group expenses settlements summary :
  getGroupSummary (Some group) [] expenses settlements = Normal summary →
  GroupSummary.perPersonAverage summary = zero.
Proof. intros H. injection H as <-. done. Qed.

(** C9 fails on the code: the guard of [perPersonAverage] tests
    [members.length], the divisor is the number of active members.  For the
    group with the single, inactive member [Sample.dee] and the expense
    [Sample.dinner] the summary has [perPersonAverage = Infinity]; without
    any expense it has [perPersonAverage = NaN].  ([averageExpense] is 90
    and 0 there, as its guard tests its own divisor.) *)
Theorem perPersonAverage_all_inactive :
  ∃ s1 s2,
    getGroupSummary (Some Sample.trip) [Sample.dee] [Sample.dinner] [] = Normal s1 ∧
    GroupSummary.memberCount s1 = 0%nat ∧
    GroupSummary.perPersonAverage s1 = PosInf ∧
    GroupSummary.averageExpense s1 = of_Z 90 ∧
    getGroupSummary (Some Sample.trip) [Sample.dee] [] [] = Normal s2 ∧
    GroupSummary.perPersonAverage s2 = NaN ∧
    GroupSummary.averageExpense s2 = zero.
Proof.
  eexists _, _. split; [reflexivity|]. split; [reflexivity|].
  split; [by_eval|]. split; [by_eval|].
  split; [reflexivity|]. split; by_eval.
Qed.

End Summary.

(** ** [getOptimizedSettlements] *)

Section Optimizer.

Implicit Types (st : loopState) (nb : list NetBalance.t).

#[local] Arguments gt : simpl never.
#[local] Arguments lt : simpl never.
#[local] Arguments min : simpl never.
#[local] Arguments add : simpl never.
#[local] Arguments sub : simpl never.
#[local] Arguments abs : simpl never.
#[local] Arguments round2 : simpl never.

Lemma insertBy_perm {A : Type} (compare : A → A → number) (x : A) (xs : list A) :
  insertBy compare x xs ≡ₚ x :: xs.
Proof.
  induction xs as [|y ys IH]; cbn [insertBy]; [done|].
  destruct (gt _ _); [|done].
  rewrite IH. apply Permutation_swap.
Qed.

Lemma sortBy_perm {A : Type} (compare : A → A → number) (xs : list A) :
  sortBy compare xs ≡ₚ xs.
Proof.
  induction xs as [|x xs IH]; simpl; [done|].
  by rewrite insertBy_perm, IH.
Qed.

Lemma lt_asym x y : (x <? y)%js = true → (y <? x)%js = true → False.
Proof.
  destruct x as [a| | |], y as [b| | |]; unfold lt; try done.
  rewrite !bool_decide_eq_true. intros Hab Hba.
  by apply Qclt_not_le in Hab; apply Hab, Qclt_le_weak.
Qed.

Lemma netBalances_elem members expenses settlements x :
  x ∈ netBalances members expenses settlements ↔
  ∃ member, member ∈ members ∧
    (abs (rawBalance expenses settlements (Member._id member)) >? cent)%js = true ∧
    x = NetBalance.mk (Member._id member) (Member.name member)
          (round2 (rawBalance expenses settlements (Member._id member))).
Proof.
  unfold netBalances. rewrite list_elem_of_In, in_flat_map. split.
  - intros (member & Hmember & Hx). exists member.
    apply list_elem_of_In in Hmember.
    destruct (gt _ _); [|by destruct Hx].
    destruct Hx as [<-|[]]. done.
  - intros (member & Hmember & Hgt & ->). exists member.
    apply list_elem_of_In in Hmember. split; [done|].
    rewrite Hgt. by left.
Qed.

(** Two entries of one member carry one balance. *)
Lemma netBalances_functional members expenses settlements x y :
  x ∈ netBalances members expenses settlements →
  y ∈ netBalances members expenses settlements →
  NetBalance.memberId x = NetBalance.memberId y →
  NetBalance.balance x = NetBalance.balance y.
Proof.
  rewrite !netBalances_elem.
  intros (mx & _ & _ & ->) (my & _ & _ & ->). simpl. by intros ->.
Qed.

Lemma creditorsOf_elem nb x :
  x ∈ creditorsOf nb ↔ x ∈ nb ∧ (NetBalance.balance x >? zero)%js = true.
Proof.
  unfold creditorsOf. rewrite sortBy_perm, list_elem_of_In, filter_In, <-list_elem_of_In.
  done.
Qed.

Lemma debtorsOf_elem nb x :
  x ∈ debtorsOf nb ↔ x ∈ nb ∧ (NetBalance.balance x <? zero)%js = true.
Proof.
  unfold debtorsOf. rewrite sortBy_perm, list_elem_of_In, filter_In, <-list_elem_of_In.
  done.
Qed.

(** No member is on both sides of the partition. *)
Lemma sides_disjoint members expenses settlements a :
  let nb := netBalances members expenses settlements in
  a ∈ idsOf (debtorsOf nb) → a ∈ idsOf (creditorsOf nb) → False.
Proof.
  intros nb. unfold idsOf. rewrite !list_elem_of_fmap.
  intros (x & -> & Hx) (y & Hid & Hy).
  apply debtorsOf_elem in Hx as [Hx Hneg].
  apply creditorsOf_elem in Hy as [Hy Hpos].
  rewrite (netBalances_functional _ _ _ x y Hx Hy Hid) in Hneg.
  by eapply lt_asym.
Qed.

Lemma idsOf_insert entries k entry balance :
  entries !! k = Some entry →
  idsOf (<[k := NetBalance.setBalance entry balance]> entries) = idsOf entries.
Proof.
  intros Hk. unfold idsOf. rewrite list_fmap_insert. simpl.
  apply list_insert_id. by rewrite list_lookup_fmap, Hk.
Qed.

(** An iteration keeps the members of both arrays, and pushes at most one
    suggestion, from a debtor to a creditor. *)
Lemma loopStep_sides st st' :
  loopStep st = Some st' →
  idsOf (debtors st') = idsOf (debtors st) ∧
  idsOf (creditors st') = idsOf (creditors st) ∧
  (suggestedSettlements st' = suggestedSettlements st ∨
   ∃ d, suggestedSettlements st' = suggestedSettlements st ++ [d] ∧
        Debt.from d ∈ idsOf (debtors st) ∧ Debt.to d ∈ idsOf (creditors st)).
Proof.
  unfold loopStep.
  destruct (debtors st !! i st) as [debtor|] eqn:Ed; [|done].
  destruct (creditors st !! j st) as [creditor|] eqn:Ec; [|done].
  intros [= <-]. simpl.
  split; [by apply idsOf_insert|]. split; [by apply idsOf_insert|].
  destruct (gt _ _); [|by left].
  right. eexists. split; [done|]. simpl. unfold idsOf.
  split; apply list_elem_of_fmap; eexists; (split; [done|]);
    by eapply list_elem_of_lookup_2.
Qed.

Lemma runLoop_sides fuel st suggestions :
  runLoop fuel st = Some suggestions →
  Forall (λ d, Debt.from d ∈ idsOf (debtors st) ∧ Debt.to d ∈ idsOf (creditors st))
    (suggestedSettlements st) →
  Forall (λ d, Debt.from d ∈ idsOf (debtors st) ∧ Debt.to d ∈ idsOf (creditors st))
    suggestions.
Proof.
  revert st. induction fuel as [|fuel IH]; intros st; simpl.
  - destruct (loopStep st); [done|]. by intros [= <-].
  - destruct (loopStep st) as [st'|] eqn:Estep; [|by intros [= <-]].
    intros Hrun Hst.
    destruct (loopStep_sides _ _ Estep) as (Hd & Hc & Hsug).
    rewrite <-Hd, <-Hc. apply IH; [done|]. rewrite Hd, Hc.
    destruct Hsug as [->|(d & -> & Hfrom & Hto)]; [done|].
    apply Forall_app. split; [done|]. by constructor.
Qed.

(** C10: in the list [getOptimizedSettlements] returns, no member is the
    [from] of one suggestion and the [to] of a suggestion: the payers are
    entries of [debtors], the receivers entries of [creditors], and the sign
    of the rounded balance puts no member in both. *)
Theorem suggestions_from_to_disjoint fuel members expenses settlements suggestions :
  getOptimizedSettlements fuel members expenses settlements = Some suggestions →
  ∀ d1 d2, d1 ∈ suggestions → d2 ∈ suggestions → Debt.from d1 ≠ Debt.to d2.
Proof.
  unfold getOptimizedSettlements. intros Hrun d1 d2 Hd1 Hd2 Heq.
  apply runLoop_sides in Hrun; [|by constructor].
  rewrite Forall_forall in Hrun. simpl in Hrun.
  destruct (Hrun d1 Hd1) as [Hfrom _]. destruct (Hrun d2 Hd2) as [_ Hto].
  rewrite Heq in Hfrom. by eapply sides_disjoint.
Qed.

Lemma suggestions_from_to_disjoint_witness :
  getOptimizedSettlements 2 [Sample.ann; Sample.bob; Sample.cyd] [Sample.tickets] [] =
    Some Sample.plan ∧
  Debt.from (Debt.mk "b2" "Bob" "a1" "Ann" (of_Z 30)) ≠
  Debt.to (Debt.mk "c3" "Cyd" "a1" "Ann" (of_Z 20)).
Proof.
  assert (H : getOptimizedSettlements 2 [Sample.ann; Sample.bob; Sample.cyd]
                [Sample.tickets] [] = Some Sample.plan) by by_eval.
  split; [exact H|].
  apply (suggestions_from_to_disjoint _ _ _ _ _ H); by_eval.
Defined.

(** *** Termination *)

Lemma sub_self (q : Qc) : (Fin q - Fin q)%js = Fin 0%Qc.
Proof. unfold sub, neg, add. f_equal. ring. Qed.

Lemma add_neg_self (q : Qc) : (Fin q + Fin (- q))%js = Fin 0%Qc.
Proof. unfold add. f_equal. ring. Qed.

Lemma abs_zero_lt_cent : (abs (Fin 0%Qc) <? cent)%js = true.
Proof. by vm_compute. Qed.

Lemma inDebt_insert entries k entry (q : Qc) :
  Forall inDebt entries → (q ≤ 0)%Qc →
  Forall inDebt (<[k := NetBalance.setBalance entry (Fin q)]> entries).
Proof. intros Hall Hq. by apply Forall_insert. Qed.

Lemma inCredit_insert entries k entry (q : Qc) :
  Forall inCredit entries → (0 ≤ q)%Qc →
  Forall inCredit (<[k := NetBalance.setBalance entry (Fin q)]> entries).
Proof. intros Hall Hq. by apply Forall_insert. Qed.

(** While the debtor owes a finite amount [-d] and the creditor is owed a
    finite amount [c], an iteration moves the smaller of the two: the
    balance of the one is brought to zero, that of the other stays between
    its value and zero, and a pointer advances. *)
Lemma loopStep_progress st st' :
  Forall inDebt (debtors st) → Forall inCredit (creditors st) →
  loopStep st = Some st' →
  Forall inDebt (debtors st') ∧ Forall inCredit (creditors st') ∧
  (remaining st' < remaining st)%nat ∧
  (length (suggestedSettlements st') ≤ S (length (suggestedSettlements st)))%nat.
Proof.
  intros HD HC. unfold loopStep.
  destruct (debtors st !! i st) as [debtor|] eqn:Ed; [|done].
  destruct (creditors st !! j st) as [creditor|] eqn:Ec; [|done].
  intros [= <-].
  pose proof (Forall_lookup_1 _ _ _ _ HD Ed) as Hd.
  pose proof (Forall_lookup_1 _ _ _ _ HC Ec) as Hc.
  unfold inDebt in Hd. unfold inCredit in Hc.
  destruct (NetBalance.balance debtor) as [d| | |] eqn:Ebd; try done.
  destruct (NetBalance.balance creditor) as [c| | |] eqn:Ebc; try done.
  pose proof (lookup_lt_Some _ _ _ Ed) as Hi.
  pose proof (lookup_lt_Some _ _ _ Ec) as Hj.
  unfold remaining. cbn [debtors creditors i j suggestedSettlements].
  rewrite !length_insert.
  change (- Fin d)%js with (Fin (- d)).
  unfold min. destruct (lt (Fin c) (Fin (- d))) eqn:Hlt.
  - (* the creditor is owed less than the debtor owes *)
    apply bool_decide_eq_true in Hlt.
    rewrite sub_self, abs_zero_lt_cent.
    change (Fin d + Fin c)%js with (Fin (d + c)).
    split; [|split; [|split]].
    + apply inDebt_insert; [done|]. qc_to_q. simpl. lra.
    + by apply inCredit_insert.
    + destruct (lt (abs _) cent); lia.
    + destruct (gt _ _); [rewrite length_app; simpl|]; lia.
  - (* the debtor owes no more than the creditor is owed *)
    apply bool_decide_eq_false in Hlt. apply Qcnot_lt_le in Hlt.
    rewrite add_neg_self, abs_zero_lt_cent.
    change (Fin c - Fin (- d))%js with (Fin (c + - - d)).
    split; [|split; [|split]].
    + by apply inDebt_insert.
    + apply inCredit_insert; [done|]. qc_to_q. simpl. lra.
    + destruct (lt (abs _) cent); lia.
    + destruct (gt _ _); [rewrite length_app; simpl|]; lia.
Qed.

Lemma runLoop_terminates fuel st :
  Forall inDebt (debtors st) → Forall inCredit (creditors st) →
  (remaining st ≤ fuel)%nat →
  ∃ suggestions,
    runLoop fuel st = Some suggestions ∧
    (length suggestions ≤ length (suggestedSettlements st) + remaining st)%nat.
Proof.
  revert st. induction fuel as [|fuel IH]; intros st HD HC Hfuel; simpl.
  - destruct (loopStep st) as [st'|] eqn:Estep.
    + destruct (loopStep_progress _ _ HD HC Estep) as (_ & _ & Hlt & _). lia.
    + eexists. split; [done|]. lia.
  - destruct (loopStep st) as [st'|] eqn:Estep.
    + destruct (loopStep_progress _ _ HD HC Estep) as (HD' & HC' & Hlt & Hlen).
      destruct (IH st' HD' HC') as (suggestions & Hrun & Hbound); [lia|].
      exists suggestions. split; [done|]. lia.
    + eexists. split; [done|]. lia.
Qed.

(** More fuel does not change the result of a finished run. *)
Lemma runLoop_mono fuel fuel' st suggestions :
  runLoop fuel st = Some suggestions → (fuel ≤ fuel')%nat →
  runLoop fuel' st = Some suggestions.
Proof.
  revert fuel' st. induction fuel as [|fuel IH]; intros fuel' st; simpl.
  - destruct (loopStep st) eqn:Estep; [done|].
    intros [= <-] _. destruct fuel'; simpl; by rewrite Estep.
  - destruct (loopStep st) as [st'|] eqn:Estep.
    + intros Hrun Hle. destruct fuel' as [|fuel']; [lia|]. simpl. rewrite Estep.
      apply IH; [done | lia].
    + intros [= <-] _. destruct fuel'; simpl; by rewrite Estep.
Qed.

Lemma netBalances_length members expenses settlements :
  (length (netBalances members expenses settlements) ≤ length members)%nat.
Proof.
  unfold netBalances. induction members as [|m members IH]; simpl; [done|].
  rewrite length_app. destruct (gt _ _); simpl; lia.
Qed.

Lemma partition_length nb :
  (length (debtorsOf nb) + length (creditorsOf nb) ≤ length nb)%nat.
Proof.
  unfold debtorsOf, creditorsOf. rewrite !sortBy_perm.
  induction nb as [|x nb IH]; simpl; [done|].
  destruct (lt (NetBalance.balance x) zero) eqn:Hneg;
    destruct (gt (NetBalance.balance x) zero) eqn:Hpos; simpl; try lia.
  exfalso. by eapply lt_asym.
Qed.

Lemma debtorsOf_owe nb : finiteBalances nb → Forall inDebt (debtorsOf nb).
Proof.
  unfold finiteBalances. rewrite !Forall_forall. intros H x Hx.
  apply debtorsOf_elem in Hx as [Hx Hneg]. apply H in Hx.
  unfold inDebt. destruct (NetBalance.balance x) as [q| | |]; try done.
  rewrite zero_Fin in Hneg. apply bool_decide_eq_true in Hneg.
  by apply Qclt_le_weak.
Qed.

Lemma creditorsOf_owed nb : finiteBalances nb → Forall inCredit (creditorsOf nb).
Proof.
  unfold finiteBalances. rewrite !Forall_forall. intros H x Hx.
  apply creditorsOf_elem in Hx as [Hx Hpos]. apply H in Hx.
  unfold inCredit. destruct (NetBalance.balance x) as [q| | |]; try done.
  rewrite zero_Fin in Hpos. apply bool_decide_eq_true in Hpos.
  by apply Qclt_le_weak.
Qed.

(** X15: when every rounded net balance is a finite number, the matching
    loop ends within [|members|] iterations, whatever fuel beyond that it is
    given, and the plan has at most [|members|] suggestions: each iteration
    brings the balance of the current debtor or of the current creditor to
    zero, and leaves the other between its value and zero. *)
Theorem finite_balances_terminate members expenses settlements :
  finiteBalances (netBalances members expenses settlements) →
  ∃ suggestions,
    (∀ fuel, (length members ≤ fuel)%nat →
       getOptimizedSettlements fuel members expenses settlements = Some suggestions) ∧
    (length suggestions ≤ length members)%nat.
Proof.
  intros Hnb. unfold getOptimizedSettlements.
  set (nb := netBalances members expenses settlements) in *.
  assert (remaining (initLoop nb) ≤ length members)%nat as Hrem.
  { unfold remaining, initLoop. simpl.
    pose proof (partition_length nb) as H.
    pose proof (netBalances_length members expenses settlements) as H0.
    fold nb in H0. lia. }
  destruct (runLoop_terminates (length members) (initLoop nb)) as (suggestions & Hrun & Hlen);
    [by apply debtorsOf_owe | by apply creditorsOf_owed | done |].
  exists suggestions. split.
  - intros fuel Hfuel. by eapply runLoop_mono.
  - simpl in Hlen. lia.
Qed.

Lemma finite_balances_terminate_witness :
  ∃ suggestions,
    getOptimizedSettlements 3 [Sample.ann; Sample.bob; Sample.cyd]
      [Sample.dinner; Sample.hotel] [Sample.bobPaysAnn] = Some suggestions ∧
    (length suggestions ≤ 3)%nat.
Proof.
  assert (finiteBalances
            (netBalances [Sample.ann; Sample.bob; Sample.cyd]
               [Sample.dinner; Sample.hotel] [Sample.bobPaysAnn])) as Hnb
    by (repeat constructor).
  destruct (finite_balances_terminate [Sample.ann; Sample.bob; Sample.cyd] _ _ Hnb)
    as (suggestions & Hrun & Hlen).
  exists suggestions. split; [exact (Hrun 3%nat (le_n 3)) | exact Hlen].
Defined.

End Optimizer.

(** ** The plan of the optimizer for the balances +50, -30, -20 *)

Section ThreeBalances.

Lemma filter_perm {A : Type} (f : A → bool) (xs ys : list A) :
  xs ≡ₚ ys → List.filter f xs ≡ₚ List.filter f ys.
Proof.
  induction 1 as [|x xs ys _ IH|x y xs|xs ys zs _ IH1 _ IH2]; simpl.
  - done.
  - destruct (f x); by rewrite IH.
  - destruct (f x), (f y); try done. apply Permutation_swap.
  - by rewrite IH1.
Qed.

Lemma round2_Fin (q : Qc) :
  round2 (Fin q) =
    Fin (Qc_of_Z (Qfloor (this (q * Qc_of_Z 100) + (1 # 2))) / Qc_of_Z 100).
Proof.
  unfold round2. change (Fin q * hundred)%js with (Fin (q * Qc_of_Z 100)).
  unfold round. apply (div_hundred (Qc_of_Z _)).
Qed.

(** The matching loop on the debtors -30, -20 and the creditor +50. *)
Lemma runLoop_three (a an b bn c cn : string) :
  runLoop 2
    (mkLoop [NetBalance.mk b bn (of_Z (-30)); NetBalance.mk c cn (of_Z (-20))]
            [NetBalance.mk a an (of_Z 50)] 0 0 []) =
  Some [Debt.mk b bn a an (of_Z 30); Debt.mk c cn a an (of_Z 20)].
Proof.
  vm_compute. apply f_equal.
  apply (f_equal2 cons); [|apply (f_equal2 cons); [|done]];
    apply (f_equal (Debt.mk _ _ _ _)), (f_equal Fin), Qc_is_canon; reflexivity.
Qed.

Lemma partition_three nb (a an b bn c cn : string) :
  nb ≡ₚ [NetBalance.mk a an (of_Z 50); NetBalance.mk b bn (of_Z (-30));
         NetBalance.mk c cn (of_Z (-20))] →
  creditorsOf nb = [NetBalance.mk a an (of_Z 50)] ∧
  debtorsOf nb = [NetBalance.mk b bn (of_Z (-30)); NetBalance.mk c cn (of_Z (-20))].
Proof.
  intros Hperm. unfold creditorsOf, debtorsOf. split.
  - apply (filter_perm (λ m, NetBalance.balance m >? zero)%js) in Hperm.
    change (List.filter _ [_; _; _]) with [NetBalance.mk a an (of_Z 50)] in Hperm.
    apply Permutation_singleton_r in Hperm. by rewrite Hperm.
  - apply (filter_perm (λ m, NetBalance.balance m <? zero)%js) in Hperm.
    change (List.filter _ [_; _; _])
      with [NetBalance.mk b bn (of_Z (-30)); NetBalance.mk c cn (of_Z (-20))] in Hperm.
    symmetry in Hperm. apply Permutation_length_2_inv in Hperm as [-> | ->];
      by vm_compute.
Qed.

(** The two iterations of the matching loop on the debtors -30, -20 and the
    creditor +50: the loop then stops, with every balance at zero. *)
Lemma loopSteps_three (a an b bn c cn : string) :
  ∃ st,
    (Some (mkLoop [NetBalance.mk b bn (of_Z (-30)); NetBalance.mk c cn (of_Z (-20))]
                  [NetBalance.mk a an (of_Z 50)] 0 0 []) ≫= loopStep) ≫= loopStep
      = Some st ∧
    loopStep st = None ∧
    Forall (λ m, NetBalance.balance m = zero) (debtors st ++ creditors st).
Proof.
  eexists. split; [vm_compute; reflexivity|]. split; [by vm_compute|].
  repeat constructor; by_eval.
Qed.

Lemma withinCent_zero : withinCent zero.
Proof. by vm_compute. Qed.

(** C3: when the net balances of the input are +50 for A, -30 for B and
    -20 for C (in any order of the members) and nothing else, the optimizer
    returns the two suggestions "B pays A 30" and "C pays A 20", in this
    order; the loop applies the two of them in two iterations, after which
    it stops with the balance of B, of C and of A within 0.01 of zero; and
    every other member was left out of the plan because its balance is not
    above 0.01 in absolute value. *)
Theorem optimizer_three_balances members expenses settlements
    (a an b bn c cn : string) :
  netBalances members expenses settlements ≡ₚ
    [NetBalance.mk a an (of_Z 50); NetBalance.mk b bn (of_Z (-30));
     NetBalance.mk c cn (of_Z (-20))] →
  let plan := [Debt.mk b bn a an (of_Z 30); Debt.mk c cn a an (of_Z 20)] in
  (∀ fuel, (2 ≤ fuel)%nat →
     getOptimizedSettlements fuel members expenses settlements = Some plan) ∧
  (∃ st,
     (Some (initLoop (netBalances members expenses settlements)) ≫= loopStep)
       ≫= loopStep = Some st ∧
     loopStep st = None ∧
     suggestedSettlements st = plan ∧
     idsOf (debtors st) = [b; c] ∧ idsOf (creditors st) = [a] ∧
     Forall (λ m, withinCent (NetBalance.balance m)) (debtors st ++ creditors st)) ∧
  (∀ member, member ∈ members → Member._id member ∉ [a; b; c] →
     (abs (rawBalance expenses settlements (Member._id member)) >? cent)%js = false).
Proof.
  intros Hperm plan.
  destruct (partition_three _ _ _ _ _ _ _ Hperm) as [Hcreditors Hdebtors].
  assert (∀ fuel, (2 ≤ fuel)%nat →
            getOptimizedSettlements fuel members expenses settlements = Some plan) as Hplan.
  { intros fuel Hfuel. unfold getOptimizedSettlements, initLoop.
    rewrite Hcreditors, Hdebtors.
    eapply runLoop_mono; [apply runLoop_three | done]. }
  split; [exact Hplan|]. split.
  - destruct (loopSteps_three a an b bn c cn) as (st & Hsteps & Hstop & Hzero).
    exists st. unfold initLoop. rewrite Hcreditors, Hdebtors.
    split; [done|]. split; [done|].
    assert (idsOf (debtors st) = [b; c] ∧ idsOf (creditors st) = [a] ∧
            suggestedSettlements st = plan) as (Hd & Hc & Hs).
    { specialize (Hplan 2%nat (le_n 2)).
      unfold getOptimizedSettlements, initLoop in Hplan.
      rewrite Hcreditors, Hdebtors in Hplan.
      cbn [mbind option_bind] in Hsteps.
      destruct (loopStep (mkLoop _ _ _ _ _)) as [st1|] eqn:E1; [|done].
      cbn [mbind option_bind] in Hsteps.
      cbn [runLoop] in Hplan. rewrite E1, Hsteps, Hstop in Hplan.
      destruct (loopStep_sides _ _ E1) as (Hd1 & Hc1 & _).
      destruct (loopStep_sides _ _ Hsteps) as (Hd2 & Hc2 & _).
      rewrite Hd2, Hd1, Hc2, Hc1. split; [done|]. split; [done|].
      by injection Hplan. }
    split; [done|]. split; [done|]. split; [done|].
    eapply Forall_impl; [exact Hzero|]. intros m ->. apply withinCent_zero.
  - intros member Hmember Hid.
    destruct (abs (rawBalance expenses settlements (Member._id member)) >? cent)%js
      eqn:Hgt; [|done].
    exfalso.
    assert (NetBalance.mk (Member._id member) (Member.name member)
              (round2 (rawBalance expenses settlements (Member._id member)))
            ∈ netBalances members expenses settlements) as Hentry.
    { apply netBalances_elem. by exists member. }
    rewrite Hperm in Hentry. apply Hid.
    repeat (apply elem_of_cons in Hentry as [Hentry|Hentry];
            [injection Hentry as -> _ _; set_solver|]).
    by apply elem_of_nil in Hentry.
Qed.

End ThreeBalances.

Section OptimizerWitnesses.

Lemma optimizer_three_balances_witness :
  getOptimizedSettlements 2 [Sample.cyd; Sample.ann; Sample.bob] [Sample.tickets] [] =
    Some Sample.plan ∧
  ∃ st,
    (Some (initLoop (netBalances [Sample.cyd; Sample.ann; Sample.bob] [Sample.tickets] []))
       ≫= loopStep) ≫= loopStep = Some st ∧
    loopStep st = None ∧
    Forall (λ m, withinCent (NetBalance.balance m)) (debtors st ++ creditors st).
Proof.
  assert (netBalances [Sample.cyd; Sample.ann; Sample.bob] [Sample.tickets] [] ≡ₚ
            [NetBalance.mk "a1" "Ann" (of_Z 50); NetBalance.mk "b2" "Bob" (of_Z (-30));
             NetBalance.mk "c3" "Cyd" (of_Z (-20))]) as Hperm by by_eval.
  destruct (optimizer_three_balances _ _ _ _ _ _ _ _ _ Hperm)
    as (Hplan & (st & Hsteps & Hstop & _ & _ & _ & Hzero) & _).
  split; [exact (Hplan 2%nat (le_n 2))|].
  exists st. split; [exact Hsteps|]. split; [exact Hstop | exact Hzero].
Defined.

End OptimizerWitnesses.

(** ** The simplifier of the design: one debt per unsettled pair *)

Section DesignSimplify.

Implicit Types (M : Design.matrix) (members : list Member.t).

Lemma unordered_sym (a b : string) : Design.unordered a b = Design.unordered b a.
Proof.
  unfold Design.unordered.
  destruct (String.leb a b) eqn:Hab, (String.leb b a) eqn:Hba; try done.
  - by rewrite (String.leb_antisym _ _ Hab Hba).
  - destruct (String.leb_total a b); congruence.
Qed.

Lemma unordered_eq (a b c d : string) :
  Design.unordered a b = Design.unordered c d →
  (a = c ∧ b = d) ∨ (a = d ∧ b = c).
Proof.
  unfold Design.unordered.
  destruct (String.leb a b), (String.leb c d); intros [= -> ->]; auto.
Qed.

Lemma unorderedPairs_elem {A : Type} (xs : list A) (x y : A) :
  (x, y) ∈ Design.unorderedPairs xs → x ∈ xs ∧ y ∈ xs.
Proof.
  induction xs as [|z xs IH]; simpl; [by intros ?%elem_of_nil|].
  rewrite elem_of_app, list_elem_of_fmap.
  intros [(y' & [= -> ->] & Hy)|Hin].
  - split; [apply list_elem_of_here | by apply list_elem_of_further].
  - destruct (IH Hin). split; by apply list_elem_of_further.
Qed.

Lemma unorderedPairs_distinct {A B : Type} (f : A → B) (xs : list A) (x y : A) :
  NoDup (f <$> xs) → (x, y) ∈ Design.unorderedPairs xs → f x ≠ f y.
Proof.
  induction xs as [|z xs IH]; simpl; [by intros _ ?%elem_of_nil|].
  rewrite NoDup_cons, elem_of_app, list_elem_of_fmap.
  intros [Hz Hnd] [(y' & [= -> ->] & Hy)|Hin]; [|by apply IH].
  intros Heq. apply Hz. rewrite Heq. by apply list_elem_of_fmap_2.
Qed.

Lemma unorderedPairs_NoDup members :
  NoDup (memberIds members) →
  NoDup ((λ p, Design.unordered (Member._id p.1) (Member._id p.2)) <$>
           Design.unorderedPairs members).
Proof.
  unfold memberIds. induction members as [|m members IH]; simpl; [constructor|].
  rewrite NoDup_cons. intros [Hm Hnd].
  rewrite fmap_app, <-list_fmap_compose. apply NoDup_app. split; [|split].
  - clear IH. induction members as [|x members IH]; simpl; [constructor|].
    rewrite fmap_cons in Hm, Hnd. apply NoDup_cons in Hnd as [Hx Hnd].
    apply not_elem_of_cons in Hm as [Hmx Hm].
    apply NoDup_cons. split; [|by apply IH].
    rewrite list_elem_of_fmap. intros (y & Heq & Hy). simpl in Heq.
    apply unordered_eq in Heq as [[_ Heq]|[_ Heq]]; [|congruence].
    apply Hx. rewrite Heq. by apply list_elem_of_fmap_2.
  - intros key. rewrite !list_elem_of_fmap.
    intros (y & -> & Hy) ([x z] & Heq & Hxz). simpl in Heq.
    apply unorderedPairs_elem in Hxz as [Hx Hz].
    apply Hm. apply unordered_eq in Heq as [[-> _]|[-> _]];
      by apply list_elem_of_fmap_2.
  - by apply IH.
Qed.

Lemma netDebt_cases M (A B : Member.t) :
  Design.netDebt M A B = [] ∨
  ∃ d, Design.netDebt M A B = [d] ∧
       Design.pairOf d = Design.unordered (Member._id A) (Member._id B).
Proof.
  unfold Design.netDebt, Design.pairOf.
  destruct (le _ _); [by left|]. right.
  destruct (gt _ _); eexists; (split; [done|]); simpl; [done|apply unordered_sym].
Qed.

Lemma simplify_elem M members d :
  d ∈ Design.simplify M members ↔
  ∃ A B, (A, B) ∈ Design.unorderedPairs members ∧ d ∈ Design.netDebt M A B.
Proof.
  unfold Design.simplify. rewrite list_elem_of_In, in_flat_map. split.
  - intros ([A B] & Hin & Hd). exists A, B. by rewrite !list_elem_of_In.
  - intros (A & B & Hin & Hd). exists (A, B). by rewrite <-!list_elem_of_In.
Qed.

Lemma simplify_pairs_NoDup M members :
  NoDup (memberIds members) →
  NoDup (Design.pairOf <$> Design.simplify M members).
Proof.
  intros Hnd%unorderedPairs_NoDup. unfold Design.simplify.
  induction (Design.unorderedPairs members) as [|[A B] pairs IH]; simpl; [constructor|].
  rewrite fmap_cons in Hnd. apply NoDup_cons in Hnd as [Hfresh Hnd].
  rewrite fmap_app.
  destruct (netDebt_cases M A B) as [->|(d & -> & Hd)]; [by apply IH|].
  simpl. apply NoDup_cons. split; [|by apply IH].
  rewrite Hd. intros (d' & Hd' & Hin)%list_elem_of_fmap.
  apply list_elem_of_In, in_flat_map in Hin as ([A' B'] & Hpair & Hin).
  apply Hfresh, list_elem_of_fmap. exists (A', B').
  split; [|by apply list_elem_of_In]. simpl in *.
  destruct (netDebt_cases M A' B') as [Hnil|(d'' & Hone & Hd'')];
    [by rewrite Hnil in Hin|].
  rewrite Hone in Hin. destruct Hin as [<-|[]]. by rewrite Hd', Hd''.
Qed.

End DesignSimplify.

Section NetSign.

(** The code tests [|net| > 0.01], the design [|net| <= 0.01]: on a number
    that is not [NaN] the one is the negation of the other. *)
Lemma gt_cent_not_le (x : number) :
  isNaN x = false → (abs x >? cent)%js = negb (abs x <=? cent)%js.
Proof.
  destruct x as [q| | |]; [|by vm_compute..|done].
  intros _. unfold abs.
  case_bool_decide; unfold gt, le, cent; by destruct (lt _ _).
Qed.

(** What is above a cent in absolute value and above zero is above a
    cent. *)
Lemma above_cent_of_pos (x : number) :
  (abs x >? cent)%js = true → (x >? zero)%js = true → (x >? cent)%js = true.
Proof.
  destruct x as [q| | |]; try done.
  unfold abs. case_bool_decide as Hneg; [|done].
  intros _. rewrite zero_Fin. unfold gt, lt. rewrite bool_decide_eq_true.
  intros Hpos. exfalso. apply (Qclt_not_le _ _ Hneg). by apply Qclt_le_weak.
Qed.

(** What is above a cent in absolute value and not above zero has an
    opposite above a cent. *)
Lemma above_cent_of_nonpos (x : number) :
  (abs x >? cent)%js = true → (x >? zero)%js = false → (- x >? cent)%js = true.
Proof.
  destruct x as [q| | |]; try done.
  unfold abs. case_bool_decide as Hneg; [done|].
  rewrite zero_Fin. unfold gt, lt, cent.
  rewrite bool_decide_eq_true, bool_decide_eq_false.
  intros Habove Hpos. exfalso. apply Hpos.
  qc_to_q. cbn [this Q2Qc] in *. rewrite ?Qred_correct in *. lra.
Qed.

End NetSign.

(** ** [getDetailedDebts]: the object [debts] against the matrix *)

Section DebtObject.

Implicit Types (ids : list string) (debts : debtMatrix) (M : Design.matrix).

Lemma forEach_app {A S : Type} (body : S → A → completion S) (xs ys : list A) (s : S) :
  forEach body (xs ++ ys) s = forEach body xs s ≫= forEach body ys.
Proof.
  revert s. induction xs as [|x xs IH]; intros s; simpl; [done|].
  destruct (body s x) as [s'|e]; simpl; [apply IH | done].
Qed.

(** A loop of assignments [m[k(x)] = c] leaves [c] under every key met. *)
Lemma fold_insert_lookup {A V : Type} (k : A → string) (c : V) (xs : list A)
    (m : gmap string V) (a : string) :
  fold_left (λ (m : gmap string V) x, <[k x := c]> m) xs m !! a =
    if decide (a ∈ k <$> xs) then Some c else m !! a.
Proof.
  revert m. induction xs as [|x xs IH]; intros m.
  - cbn [fold_left]. case_decide as Hin; [by apply elem_of_nil in Hin | done].
  - cbn [fold_left]. rewrite IH, fmap_cons.
    destruct (decide (a ∈ k <$> xs)) as [Hin|Hout].
    + rewrite decide_True; [done|]. by apply list_elem_of_further.
    + destruct (decide (a = k x)) as [->|Hne].
      * rewrite decide_True by apply list_elem_of_here. by rewrite lookup_insert_eq.
      * rewrite decide_False by (by intros [?|?]%elem_of_cons).
        by rewrite lookup_insert_ne.
Qed.

Lemma initDebts_represents members :
  represents (memberIds members) (initDebts members) Design.initial.
Proof.
  intros a b Ha Hb. unfold initDebts.
  eexists. rewrite fold_insert_lookup, decide_True by done. split; [done|].
  by rewrite fold_insert_lookup, decide_True.
Qed.

(** An assignment to [debts[a][b]] with a row for [a] is the update of
    the matrix. *)
Lemma updateDebt_represents ids debts M (f : number → number) (a b : string) :
  represents ids debts M → a ∈ ids →
  ∃ debts', updateDebt f a b debts = Normal debts' ∧
            represents ids debts' (Design.update f a b M).
Proof.
  intros Hrep Ha. unfold updateDebt.
  destruct (debts !! a) as [row|] eqn:Erow.
  - eexists. split; [done|]. intros x y Hx Hy. unfold Design.update.
    destruct (decide (x = a)) as [->|Hxa].
    + rewrite lookup_insert_eq. eexists. split; [done|].
      destruct (Hrep a y Ha Hy) as (row' & Hrow' & Hy'). simplify_eq.
      destruct (decide (y = b)) as [->|Hyb].
      * rewrite lookup_insert_eq, bool_decide_eq_true_2 by done.
        by rewrite Hy'.
      * rewrite lookup_insert_ne by done.
        rewrite bool_decide_eq_false_2; [done|]. by intros [_ ?].
    + rewrite lookup_insert_ne by done.
      rewrite bool_decide_eq_false_2; [by apply Hrep|]. by intros [? _].
  - destruct (Hrep a a Ha Ha) as (row & Hrow & _). congruence.
Qed.

Lemma addExpenseDebts_represents ids debts M expense :
  represents ids debts M → participantsResolve ids expense →
  ∃ debts', addExpenseDebts debts expense = Normal debts' ∧
    represents ids debts'
      (fold_left
         (λ M p,
            if bool_decide (p ≠ Expense.paidBy expense)
            then Design.update (λ v, v + calculateExpenseSplit expense p)%js
                   p (Expense.paidBy expense) M
            else M)
         (Expense.splitAmong expense) M).
Proof.
  unfold addExpenseDebts, participantsResolve.
  generalize (Expense.splitAmong expense) as participants.
  intros participants Hrep Hres. revert debts M Hrep.
  induction Hres as [|p participants Hp _ IH]; intros debts M Hrep; simpl.
  - by eexists.
  - case_bool_decide as Hne.
    + destruct (updateDebt_represents ids debts M
                  (λ v, v + calculateExpenseSplit expense p)%js
                  p (Expense.paidBy expense) Hrep (Hp Hne)) as (debts' & -> & Hrep').
      simpl. by apply IH.
    + simpl. by apply IH.
Qed.

(** On an input whose participants and senders are members, the three
    loops build the matrix of the design. *)
Lemma computeDebts_represents members expenses settlements :
  Forall (participantsResolve (memberIds members)) expenses →
  Forall (senderResolves (memberIds members)) settlements →
  ∃ debts, computeDebts members expenses settlements = Normal debts ∧
    represents (memberIds members) debts (Design.buildDebtMatrix expenses settlements).
Proof.
  intros Hes Hss. unfold computeDebts, Design.buildDebtMatrix.
  pose proof (initDebts_represents members) as Hrep.
  revert Hrep. generalize (initDebts members) Design.initial.
  induction Hes as [|e expenses He _ IH]; intros debts M Hrep; simpl.
  - revert debts M Hrep.
    induction Hss as [|s settlements Hs _ IH]; intros debts M Hrep; simpl.
    + by eexists.
    + destruct (updateDebt_represents _ debts M
                  (λ v, v - Settlement.amount s)%js
                  (Settlement.fromMember s) (Settlement.toMember s) Hrep Hs)
        as (debts' & Hupdate & Hrep').
      change (subtractSettlement debts s) with
        (updateDebt (λ v, v - Settlement.amount s)%js
           (Settlement.fromMember s) (Settlement.toMember s) debts).
      rewrite Hupdate. simpl. by apply IH.
  - destruct (addExpenseDebts_represents _ debts M e Hrep He) as (debts' & -> & Hrep').
    simpl. by apply IH.
Qed.

End DebtObject.

(** ** [getDetailedDebts]: the [processed] set against the unordered pairs *)

Section PairKeys.

Lemma pairKey_unordered (a b : string) :
  pairKey a b = (Design.unordered a b).1 +:+ "-" +:+ (Design.unordered a b).2.
Proof. unfold pairKey, Design.unordered. by destruct (String.leb a b). Qed.

Lemma pairKey_sym (a b : string) : pairKey a b = pairKey b a.
Proof. by rewrite !pairKey_unordered, unordered_sym. Qed.

Lemma append_empty (s : string) : "" +:+ s = s.
Proof. reflexivity. Qed.

Lemma append_String (c : ascii) (s t : string) : String c s +:+ t = String c (s +:+ t).
Proof. reflexivity. Qed.

(** A hyphen-free prefix is determined by the joined string. *)
Lemma join_inj (s1 s2 t1 t2 : string) :
  hyphenFree s1 = true → hyphenFree t1 = true →
  s1 +:+ "-" +:+ s2 = t1 +:+ "-" +:+ t2 → s1 = t1 ∧ s2 = t2.
Proof.
  assert (∀ s, "-" +:+ s = String "-" s) as Hyphen by done.
  rewrite !Hyphen. clear Hyphen.
  revert t1. induction s1 as [|c s1 IH]; intros [|c' t1]; simpl;
    repeat (rewrite append_empty || rewrite append_String).
  - by intros _ _ [= ->].
  - intros _ [Hc _]%andb_true_iff [= <- _]. done.
  - intros [Hc _]%andb_true_iff _ [= -> _]. done.
  - intros [_ Hs]%andb_true_iff [_ Ht]%andb_true_iff [= -> Heq].
    destruct (IH t1 Hs Ht Heq) as [-> ->]. done.
Qed.

Lemma unordered_hyphenFree (a b : string) :
  hyphenFree a = true → hyphenFree b = true →
  hyphenFree (Design.unordered a b).1 = true.
Proof. unfold Design.unordered. by destruct (String.leb a b). Qed.

(** On hyphen-free ids the key determines the unordered pair. *)
Lemma pairKey_inj (a b c d : string) :
  hyphenFree a = true → hyphenFree b = true →
  hyphenFree c = true → hyphenFree d = true →
  pairKey a b = pairKey c d → Design.unordered a b = Design.unordered c d.
Proof.
  intros Ha Hb Hc Hd. rewrite !pairKey_unordered. intros Heq.
  apply join_inj in Heq as [H1 H2]; [|by apply unordered_hyphenFree..].
  destruct (Design.unordered a b), (Design.unordered c d). simpl in *. congruence.
Qed.

End PairKeys.

Section SimplifyLoop.

Variable members : list Member.t.
Variable debts : debtMatrix.
Variable M : Design.matrix.
Hypothesis distinct_ids : NoDup (memberIds members).
Hypothesis hyphenFree_ids : Forall (λ id, hyphenFree id = true) (memberIds members).
Hypothesis debts_represent : represents (memberIds members) debts M.
Hypothesis nets_compare :
  ∀ x y, x ∈ memberIds members → y ∈ memberIds members →
    isNaN (Design.net M x y) = false.

#[local] Arguments round2 : simpl never.
#[local] Arguments abs : simpl never.
#[local] Arguments gt : simpl never.
#[local] Arguments le : simpl never.
#[local] Arguments sub : simpl never.
#[local] Arguments simplifyPair : simpl never.

Lemma member_id_elem (A : Member.t) : A ∈ members → Member._id A ∈ memberIds members.
Proof. intros H. by apply list_elem_of_fmap_2. Qed.

Lemma member_hyphenFree (A : Member.t) : A ∈ members → hyphenFree (Member._id A) = true.
Proof.
  intros H%member_id_elem. rewrite Forall_forall in hyphenFree_ids.
  by apply hyphenFree_ids.
Qed.

Lemma readDebt_represents (A B : Member.t) :
  A ∈ members → B ∈ members →
  readDebt debts (Member._id A) (Member._id B) =
    Normal (Some (M (Member._id A) (Member._id B))).
Proof.
  intros HA%member_id_elem HB%member_id_elem. unfold readDebt.
  destruct (debts_represent _ _ HA HB) as (row & -> & ->). done.
Qed.

Lemma simplifyPair_same (D C : Member.t) st :
  Member._id D = Member._id C → simplifyPair debts D C st = Normal st.
Proof.
  intros H. unfold simplifyPair. destruct st as [P out].
  by rewrite bool_decide_eq_true_2.
Qed.

Lemma simplifyPair_seen (D C : Member.t) (P : gset string) out :
  pairKey (Member._id D) (Member._id C) ∈ P →
  simplifyPair debts D C (P, out) = Normal (P, out).
Proof.
  intros H. unfold simplifyPair. case_bool_decide; [done|].
  by rewrite bool_decide_eq_true_2.
Qed.

(** A pair met for the first time: the key is recorded and the debts of
    the design for the pair are pushed. *)
Lemma simplifyPair_fresh (D C : Member.t) (P : gset string) out :
  D ∈ members → C ∈ members → Member._id D ≠ Member._id C →
  pairKey (Member._id D) (Member._id C) ∉ P →
  simplifyPair debts D C (P, out) =
    Normal ({[ pairKey (Member._id D) (Member._id C) ]} ∪ P,
            out ++ Design.netDebt M D C).
Proof.
  intros HD HC Hne Hfresh. unfold simplifyPair.
  rewrite !bool_decide_eq_false_2 by done.
  rewrite !readDebt_represents by done. simpl.
  unfold Design.netDebt. fold (Design.net M (Member._id D) (Member._id C)).
  rewrite gt_cent_not_le by (by apply nets_compare; apply member_id_elem).
  destruct (le _ _); simpl; [by rewrite app_nil_r|].
  by destruct (gt _ _).
Qed.

Lemma row_skip (D : Member.t) (cs : list Member.t) (P : gset string) out :
  Forall (λ C, Member._id D = Member._id C ∨
               pairKey (Member._id D) (Member._id C) ∈ P) cs →
  forEach (λ st C, simplifyPair debts D C st) cs (P, out) = Normal (P, out).
Proof.
  induction 1 as [|C cs [Hsame|Hseen] _ IH]; simpl; [done| |].
  - by rewrite simplifyPair_same.
  - by rewrite simplifyPair_seen.
Qed.

Lemma row_fresh (D : Member.t) (cs : list Member.t) (P : gset string) out :
  D ∈ members → Forall (λ C, C ∈ members) cs → NoDup (Member._id <$> cs) →
  Forall (λ C, Member._id D ≠ Member._id C ∧
               pairKey (Member._id D) (Member._id C) ∉ P) cs →
  forEach (λ st C, simplifyPair debts D C st) cs (P, out) =
    Normal (list_to_set ((λ C, pairKey (Member._id D) (Member._id C)) <$> cs) ∪ P,
            out ++ flat_map (Design.netDebt M D) cs).
Proof.
  intros HD Hcs. revert P out.
  induction Hcs as [|C cs HC Hcs IH]; intros P out Hnd Hfresh; simpl.
  - f_equal. f_equal; [|by rewrite app_nil_r].
    by rewrite (left_id_L ∅ (∪)).
  - rewrite fmap_cons in Hnd. apply NoDup_cons in Hnd as [HCcs Hnd].
    apply Forall_cons in Hfresh as [[Hne Hkey] Hfresh].
    rewrite simplifyPair_fresh by done. simpl.
    rewrite IH; [|done|].
    + f_equal. f_equal; [|by rewrite app_assoc].
      rewrite (assoc_L (∪)). f_equal. apply (comm_L (∪)).
    + rewrite Forall_forall in Hfresh, Hcs. apply Forall_forall. intros C' HC'.
      destruct (Hfresh C' HC') as [Hne' Hkey']. split; [done|].
      rewrite elem_of_union, elem_of_singleton. intros [Heq|?]; [|done].
      apply pairKey_inj in Heq; [|by auto using member_hyphenFree..].
      apply unordered_eq in Heq as [[_ Heq]|[Heq _]]; [|done].
      apply HCcs. rewrite <-Heq. by apply list_elem_of_fmap_2.
Qed.

Lemma simplify_cons (D : Member.t) (post : list Member.t) :
  Design.simplify M (D :: post) =
    flat_map (Design.netDebt M D) post ++ Design.simplify M post.
Proof.
  unfold Design.simplify. cbn [Design.unorderedPairs]. rewrite flat_map_app. f_equal.
  induction post as [|C post IH]; [done|].
  rewrite fmap_cons. cbn [flat_map]. by f_equal.
Qed.

(** The rows of the members of [post], after those of [pre]. *)
Lemma rows_refine (post pre : list Member.t) (P : gset string) out :
  members = pre ++ post → processedAfter pre members P →
  ∃ P', forEach
          (λ st D, forEach (λ st C, simplifyPair debts D C st) members st)
          post (P, out) =
        Normal (P', out ++ Design.simplify M post).
Proof.
  revert pre P out. induction post as [|D post IH]; intros pre P out Hsplit Hinv.
  - exists P. simpl. by rewrite app_nil_r.
  - pose proof distinct_ids as Hnd. unfold memberIds in Hnd.
    rewrite Hsplit, fmap_app, fmap_cons in Hnd.
    apply NoDup_app in Hnd as (Hpre & Hdisj & [HDpost Hpost]%NoDup_cons).
    assert (D ∈ members) as HD.
    { rewrite Hsplit. apply elem_of_app. right. apply list_elem_of_here. }
    assert (∀ C, C ∈ pre → C ∈ members) as Hpre_in.
    { intros C HC. rewrite Hsplit. apply elem_of_app. by left. }
    assert (∀ C, C ∈ post → C ∈ members) as Hpost_in.
    { intros C HC. rewrite Hsplit. apply elem_of_app. right.
      by apply list_elem_of_further. }
    assert (∀ C, C ∈ pre → Member._id C ≠ Member._id D) as Hpre_D.
    { intros C HC Heq. apply (Hdisj (Member._id C)); [by apply list_elem_of_fmap_2|].
      rewrite Heq. apply list_elem_of_here. }
    assert (∀ C C', C ∈ pre → C' ∈ post → Member._id C ≠ Member._id C') as Hpre_post.
    { intros C C' HC HC' Heq.
      apply (Hdisj (Member._id C)); [by apply list_elem_of_fmap_2|].
      rewrite Heq. by apply list_elem_of_further, list_elem_of_fmap_2. }
    assert (∀ C, C ∈ post → Member._id D ≠ Member._id C) as HD_post.
    { intros C HC Heq. apply HDpost. rewrite Heq. by apply list_elem_of_fmap_2. }
    assert (forEach (λ st C, simplifyPair debts D C st) members (P, out) =
            Normal (list_to_set ((λ C, pairKey (Member._id D) (Member._id C)) <$> post)
                      ∪ P,
                    out ++ flat_map (Design.netDebt M D) post)) as Hrow.
    { rewrite Hsplit.
      change (pre ++ D :: post) with (pre ++ [D] ++ post).
      rewrite !forEach_app.
      rewrite row_skip; cycle 1.
      { apply Forall_forall. intros C HC. right.
        rewrite pairKey_sym. apply Hinv. exists C, D. auto. }
      simpl. rewrite simplifyPair_same by done. simpl.
      apply row_fresh; [done|by apply Forall_forall|done|].
      apply Forall_forall. intros C HC. split; [by apply HD_post|].
      intros (x & y & Hx & Hy & Hxy & Hkey)%Hinv.
      apply pairKey_inj in Hkey; [|by auto using member_hyphenFree..].
      apply unordered_eq in Hkey as [[Heq _]|[_ Heq]].
      - by apply (Hpre_D x).
      - by apply (Hpre_post x C). }
    cbn [forEach]. rewrite Hrow.
    simpl.
    destruct (IH (pre ++ [D])
                (list_to_set ((λ C, pairKey (Member._id D) (Member._id C)) <$> post) ∪ P)
                (out ++ flat_map (Design.netDebt M D) post)) as (P' & HP').
    { by rewrite <-app_assoc. }
    { intros key. rewrite elem_of_union, elem_of_list_to_set, list_elem_of_fmap. split.
      - intros [(C & -> & HC)|Hkey].
        + exists D, C. split; [apply elem_of_app; right; apply list_elem_of_here|].
          auto.
        + apply Hinv in Hkey as (x & y & Hx & Hy & Hxy & ->).
          exists x, y. split; [apply elem_of_app; by left|]. auto.
      - intros (x & y & [Hx|Hx%list_elem_of_singleton]%elem_of_app & Hy & Hxy & ->).
        + right. apply Hinv. by exists x, y.
        + subst x. rewrite Hsplit in Hy.
          apply elem_of_app in Hy as [Hy|[->|Hy]%elem_of_cons]; [|done|].
          * right. rewrite pairKey_sym. apply Hinv. exists y, D. auto.
          * left. by exists y. }
    exists P'. rewrite HP', simplify_cons. by rewrite app_assoc.
Qed.

(** The two nested loops return the list of the design. *)
Lemma simplifyDebts_refines :
  simplifyDebts debts members = Normal (Design.simplify M members).
Proof.
  unfold simplifyDebts.
  destruct (rows_refine members [] ∅ []) as (P' & ->); [done| |done].
  intros key. split; [by intros ?%not_elem_of_empty|].
  by intros (x & _ & ?%elem_of_nil & _).
Qed.

End SimplifyLoop.

Section DetailedDebtsClaim.

(** C2 fails on the code.  With the single member Ann and a settlement
    sent by an id that is not a member ([Sample.fromGone]: the sender was
    removed, which [members.remove] allows as it checks the expenses only),
    the assignment [debts[fromMember][toMember] -= amount] reads a property
    of the undefined row [debts[fromMember]] and [getDetailedDebts] throws a
    [TypeError]; the same happens for an expense with a participant, other
    than the payer, that is not a member.  The composition of the matrix
    build with the simplifier that the design describes returns the empty
    list there, and the two handlers next to it return on this input:
    [getMemberBalances] gives Ann the balance -10, [getOptimizedSettlements]
    the empty plan. *)
Theorem dangling_reference_throws :
  getDetailedDebts [Sample.ann] [] [Sample.fromGone] = Throw TypeError ∧
  getDetailedDebts [Sample.ann] [Sample.dinner] [] = Throw TypeError ∧
  Design.simplify (Design.buildDebtMatrix [] [Sample.fromGone]) [Sample.ann] = [] ∧
  MemberBalance.balance <$> getMemberBalances [Sample.ann] [] [Sample.fromGone] =
    [of_Z (-10)] ∧
  getOptimizedSettlements 0 [Sample.ann] [] [Sample.fromGone] = Some [].
Proof. repeat split; by_eval. Qed.

(** X16: on an input in which the member ids are distinct and hyphen-free,
    every participant other than the payer and every sender of a settlement
    is a member, and the net of no two members is [NaN], [getDetailedDebts]
    returns the simplification (section 4.4 of the design) of the matrix of
    section 4.3: the nested loops with the [processed] set of sorted-pair
    keys visit every unordered pair of members once, in the order of the
    member list.  The list has no debt of a member to itself and no two
    debts of one unordered pair. *)
Theorem getDetailedDebts_refines members expenses settlements :
  NoDup (memberIds members) →
  Forall (λ id, hyphenFree id = true) (memberIds members) →
  Forall (participantsResolve (memberIds members)) expenses →
  Forall (senderResolves (memberIds members)) settlements →
  let M := Design.buildDebtMatrix expenses settlements in
  Forall (λ x, Forall (λ y, isNaN (Design.net M x y) = false) (memberIds members))
    (memberIds members) →
  let debts := Design.simplify M members in
  getDetailedDebts members expenses settlements = Normal debts ∧
  (∀ d, d ∈ debts → Debt.from d ≠ Debt.to d) ∧
  NoDup (Design.pairOf <$> debts).
Proof.
  intros Hnd Hhf Hparts Hsenders M Hnets debts.
  split; [|split; [|by apply simplify_pairs_NoDup]].
  - unfold getDetailedDebts.
    destruct (computeDebts_represents members expenses settlements Hparts Hsenders)
      as (object & -> & Hrep).
    simpl. apply simplifyDebts_refines; [done..|].
    intros x y Hx Hy. rewrite Forall_forall in Hnets.
    specialize (Hnets x Hx). rewrite Forall_forall in Hnets. by apply Hnets.
  - intros d (A & B & Hpair & Hd)%simplify_elem.
    pose proof (unorderedPairs_distinct Member._id _ _ _ Hnd Hpair) as Hne.
    unfold Design.netDebt in Hd. destruct (le _ _); [by apply elem_of_nil in Hd|].
    destruct (gt _ _); apply list_elem_of_singleton in Hd as ->; simpl; congruence.
Qed.

Lemma getDetailedDebts_refines_witness :
  getDetailedDebts [Sample.ann; Sample.bob; Sample.cyd]
    [Sample.dinner; Sample.hotel] [Sample.bobPaysAnn] =
  Normal
    (Design.simplify (Design.buildDebtMatrix [Sample.dinner; Sample.hotel] [Sample.bobPaysAnn])
       [Sample.ann; Sample.bob; Sample.cyd]).
Proof.
  apply getDetailedDebts_refines; by_eval.
Defined.

End DetailedDebtsClaim.

(** * Further properties of the handlers *)

Section BalancesExtra.

Implicit Types (expenses : list Expense.t) (settlements : list Settlement.t).

Lemma add_zero_r (x : number) : (x + zero)%js = x.
Proof.
  rewrite zero_Fin. destruct x as [q| | |]; try done.
  unfold add. f_equal. ring.
Qed.

Lemma fold_filter_add {A : Type} (keep : A → bool) (f : A → number) (xs : list A)
    (acc : number) :
  fold_left (λ sum x, sum + f x)%js (List.filter keep xs) acc =
  fold_left (λ sum x, if keep x then (sum + f x)%js else sum) xs acc.
Proof.
  revert acc. induction xs as [|x xs IH]; intros acc; simpl; [done|].
  destruct (keep x); simpl; apply IH.
Qed.

(** X8: the totals of [getMemberExpenseBreakdown] are the totals
    [getMemberBalances] computes for the member from the expenses alone:
    filtering the expenses first drops only terms that add nothing. *)
Theorem breakdown_totals_agree member expenses memberId breakdown :
  getMemberExpenseBreakdown (Some member) expenses memberId = Normal breakdown →
  (Breakdown.totalPaid breakdown, Breakdown.totalOwed breakdown) =
    memberTotals expenses [] memberId.
Proof.
  intros [= <-]. simpl. unfold memberTotals. simpl.
  rewrite !fold_filter_add. generalize zero at 1 3. generalize zero.
  induction expenses as [|e expenses IH]; intros o p; [done|].
  cbn [fold_left].
  destruct (includes (Expense.splitAmong e) memberId) eqn:Hinc; [apply IH|].
  apply includes_false in Hinc.
  rewrite (split_not_included e memberId Hinc), add_zero_r. apply IH.
Qed.

Lemma breakdown_totals_agree_witness :
  ∃ breakdown,
    getMemberExpenseBreakdown (Some Sample.ann) [Sample.dinner; Sample.hotel] "a1" =
      Normal breakdown ∧
    (Breakdown.totalPaid breakdown, Breakdown.totalOwed breakdown) =
      memberTotals [Sample.dinner; Sample.hotel] [] "a1".
Proof.
  eexists. split; [reflexivity|].
  by apply (breakdown_totals_agree Sample.ann _ "a1").
Defined.

End BalancesExtra.

Section SummaryExtra.

Lemma div_by_zero_not_finite (x : number) : ¬ is_finite (x / of_nat 0)%js.
Proof.
  unfold of_nat, of_Z. change (Z.of_nat 0) with 0%Z. rewrite Qc_of_Z_0.
  destruct x as [q| | |]; unfold div.
  - rewrite bool_decide_eq_true_2 by done. destruct (q ?= 0)%Qc; simpl; tauto.
  - cbn [sign]. case_bool_decide; simpl; tauto.
  - cbn [sign]. case_bool_decide; simpl; tauto.
  - simpl. tauto.
Qed.

Lemma filter_none {A : Type} (keep : A → bool) (xs : list A) :
  Forall (λ x, keep x = false) xs → List.filter keep xs = [].
Proof. induction 1 as [|x xs Hx _ IH]; simpl; [done|]. by rewrite Hx. Qed.

(** X10: when the group has members and none of them is active,
    [perPersonAverage] is [Infinity], [-Infinity] or [NaN], whatever the
    expenses are: the guard tests the number of members, and the division
    is by the number of active members, which is zero. *)
Theorem perPersonAverage_without_active_member group members expenses settlements summary :
  members ≠ [] → Forall (λ member, Member.isActive member = false) members →
  getGroupSummary (Some group) members expenses settlements = Normal summary →
  ¬ is_finite (GroupSummary.perPersonAverage summary).
Proof.
  intros Hne Hinactive [= <-]. cbn [GroupSummary.perPersonAverage].
  rewrite (filter_none _ _ Hinactive).
  destruct members as [|m members]; [done|].
  change (0 <? length (m :: members))%nat with true. cbv iota.
  apply div_by_zero_not_finite.
Qed.

Lemma perPersonAverage_without_active_member_witness :
  ∃ summary,
    getGroupSummary (Some Sample.trip) [Sample.dee]
      [Sample.dinner; Sample.hotel] [Sample.bobPaysAnn] = Normal summary ∧
    ¬ is_finite (GroupSummary.perPersonAverage summary).
Proof.
  eexists. split; [reflexivity|].
  eapply (perPersonAverage_without_active_member Sample.trip [Sample.dee]
            [Sample.dinner; Sample.hotel] [Sample.bobPaysAnn]);
    [done | by repeat constructor | reflexivity].
Defined.

End SummaryExtra.

Section OptimizerExtra.

Implicit Types (st : loopState) (nb : list NetBalance.t).

#[local] Arguments gt : simpl never.
#[local] Arguments lt : simpl never.
#[local] Arguments le : simpl never.
#[local] Arguments min : simpl never.
#[local] Arguments add : simpl never.
#[local] Arguments sub : simpl never.
#[local] Arguments abs : simpl never.
#[local] Arguments round2 : simpl never.

(** X3: every suggestion of the plan is paid by a member whose balance is
    more than 0.01 away from zero and rounds below zero, and received by a
    member whose balance is more than 0.01 away from zero and rounds above
    zero; so a member within a cent of zero is in no suggestion. *)
Theorem plan_joins_debtor_to_creditor fuel members expenses settlements plan d :
  getOptimizedSettlements fuel members expenses settlements = Some plan →
  d ∈ plan →
  ∃ payer receiver,
    payer ∈ members ∧ receiver ∈ members ∧
    Debt.from d = Member._id payer ∧ Debt.to d = Member._id receiver ∧
    let owes := rawBalance expenses settlements (Member._id payer) in
    let owed := rawBalance expenses settlements (Member._id receiver) in
    (abs owes >? cent)%js = true ∧ (round2 owes <? zero)%js = true ∧
    (abs owed >? cent)%js = true ∧ (round2 owed >? zero)%js = true.
Proof.
  unfold getOptimizedSettlements. intros Hrun Hd.
  apply runLoop_sides in Hrun; [|by constructor].
  rewrite Forall_forall in Hrun. destruct (Hrun d Hd) as [Hfrom Hto].
  simpl in Hfrom, Hto. unfold idsOf in Hfrom, Hto.
  apply list_elem_of_fmap in Hfrom as (x & Hx & [Hxin Hxneg]%debtorsOf_elem).
  apply list_elem_of_fmap in Hto as (y & Hy & [Hyin Hypos]%creditorsOf_elem).
  apply netBalances_elem in Hxin as (payer & Hpayer & Hxabs & ->).
  apply netBalances_elem in Hyin as (receiver & Hreceiver & Hyabs & ->).
  exists payer, receiver. simpl in *. done.
Qed.

Lemma plan_joins_debtor_to_creditor_witness :
  ∃ payer receiver,
    payer ∈ [Sample.ann; Sample.bob; Sample.cyd] ∧
    receiver ∈ [Sample.ann; Sample.bob; Sample.cyd] ∧
    "b2" = Member._id payer ∧ "a1" = Member._id receiver ∧
    (abs (rawBalance [Sample.tickets] [] (Member._id payer)) >? cent)%js = true ∧
    (round2 (rawBalance [Sample.tickets] [] (Member._id payer)) <? zero)%js = true ∧
    (abs (rawBalance [Sample.tickets] [] (Member._id receiver)) >? cent)%js = true ∧
    (round2 (rawBalance [Sample.tickets] [] (Member._id receiver)) >? zero)%js = true.
Proof.
  apply (plan_joins_debtor_to_creditor 2 [Sample.ann; Sample.bob; Sample.cyd]
           [Sample.tickets] [] Sample.plan (Debt.mk "b2" "Bob" "a1" "Ann" (of_Z 30)));
    by_eval.
Defined.

(** An amount above a cent rounds to a cent or more. *)
Lemma round2_above_cent (q : Qc) :
  (Fin q >? cent)%js = true → (cent <=? round2 (Fin q))%js = true.
Proof.
  unfold gt, lt, cent. rewrite bool_decide_eq_true. intros Hq.
  rewrite round2_Fin.
  unfold le, lt. apply negb_true_iff, bool_decide_eq_false_2.
  set (n := Qfloor (this (q * Qc_of_Z 100) + (1 # 2))).
  assert (1 ≤ n)%Z as Hn.
  { rewrite <-(Qfloor_Z 1). apply Qfloor_resp_le.
    rewrite this_mult. qc_to_q. cbn [this Qc_of_Z Q2Qc] in *.
    rewrite ?Qred_correct in *.
    change (inject_Z 1) with (1 # 1)%Q. change (inject_Z 100) with (100 # 1)%Q. lra. }
  unfold Qclt. rewrite this_div_Z by done. cbn [this Qc_of_Z Q2Qc].
  rewrite Qred_correct.
  assert (1 # 1 <= inject_Z n)%Q as Hn'.
  { change (1 # 1)%Q with (inject_Z 1). by rewrite <-Zle_Qle. }
  change (inject_Z 100) with (100 # 1)%Q.
  intros Hlt. apply Qlt_not_le in Hlt. apply Hlt.
  apply Qle_shift_div_l; [done|]. lra.
Qed.

(** The same for every number: what is above a cent is a finite number
    above a cent or [Infinity], which [round2] leaves as it is. *)
Lemma round2_at_least_cent (x : number) :
  (x >? cent)%js = true → (cent <=? round2 x)%js = true.
Proof.
  destruct x as [q| | |]; [apply round2_above_cent| |by vm_compute..].
  intros _. by vm_compute.
Qed.

Lemma loopStep_amount st st' :
  loopStep st = Some st' →
  suggestedSettlements st' = suggestedSettlements st ∨
  ∃ d, suggestedSettlements st' = suggestedSettlements st ++ [d] ∧
       (cent <=? Debt.amount d)%js = true.
Proof.
  unfold loopStep.
  destruct (debtors st !! i st) as [debtor|] eqn:Ed; [|done].
  destruct (creditors st !! j st) as [creditor|] eqn:Ec; [|done].
  intros [= <-]. simpl.
  destruct (gt _ _) eqn:Hgt; [|by left].
  right. eexists. split; [done|]. simpl.
  by apply round2_at_least_cent.
Qed.

Lemma runLoop_amounts fuel st plan :
  runLoop fuel st = Some plan →
  Forall (λ d, (cent <=? Debt.amount d)%js = true) (suggestedSettlements st) →
  Forall (λ d, (cent <=? Debt.amount d)%js = true) plan.
Proof.
  revert st. induction fuel as [|fuel IH]; intros st; simpl.
  - destruct (loopStep st); [done|]. by intros [= <-].
  - destruct (loopStep st) as [st'|] eqn:Estep; [|by intros [= <-]].
    intros Hrun Hst.
    apply (IH st'); [done|].
    destruct (loopStep_amount _ _ Estep) as [->|(d & -> & Hge)]; [done|].
    apply Forall_app. split; [done|]. by constructor.
Qed.

(** X4: every suggested amount is at least 0.01: a suggestion is pushed
    only for an amount above 0.01, and such an amount rounds to 0.01 or
    more. *)
Theorem suggested_amounts_at_least_a_cent fuel members expenses settlements plan :
  getOptimizedSettlements fuel members expenses settlements = Some plan →
  Forall (λ d, (cent <=? Debt.amount d)%js = true) plan.
Proof.
  intros Hrun. unfold getOptimizedSettlements in Hrun.
  eapply runLoop_amounts; [exact Hrun | by constructor].
Qed.

Lemma suggested_amounts_at_least_a_cent_witness :
  Forall (λ d, (cent <=? Debt.amount d)%js = true) Sample.plan.
Proof.
  apply (suggested_amounts_at_least_a_cent 2 [Sample.ann; Sample.bob; Sample.cyd]
           [Sample.tickets] []); by_eval.
Defined.

End OptimizerExtra.

Section OptimizerDivergence.

Implicit Types (st : loopState).

Lemma stuck_step st : stuck st → ∃ st', loopStep st = Some st' ∧ stuck st'.
Proof.
  intros (debtor & creditor & Ed & Ec & Hd & Hc).
  unfold loopStep. rewrite Ed, Ec, Hd, Hc. eexists. split; [done|].
  exists (NetBalance.setBalance debtor NaN), (NetBalance.setBalance creditor NaN).
  cbn [debtors creditors i j min neg add sub abs lt].
  rewrite !list_lookup_insert_eq by (by eapply lookup_lt_Some). done.
Qed.

Lemma stuck_forever st : stuck st → ∀ fuel, runLoop fuel st = None.
Proof.
  intros Hst fuel. revert st Hst. induction fuel as [|fuel IH]; intros st Hst;
    destruct (stuck_step st Hst) as (st' & Hstep & Hst'); simpl; rewrite Hstep.
  - done.
  - by apply IH.
Qed.

(** With [-Infinity] under the debtor pointer and [Infinity] under the
    creditor pointer, one iteration turns both balances into [NaN]. *)
Lemma infinities_step st debtor creditor :
  debtors st !! i st = Some debtor → creditors st !! j st = Some creditor →
  NetBalance.balance debtor = NegInf → NetBalance.balance creditor = PosInf →
  ∃ st', loopStep st = Some st' ∧ stuck st'.
Proof.
  intros Ed Ec Hd Hc.
  unfold loopStep. rewrite Ed, Ec, Hd, Hc. eexists. split; [done|].
  exists (NetBalance.setBalance debtor NaN), (NetBalance.setBalance creditor NaN).
  cbn [debtors creditors i j min neg add sub abs lt].
  rewrite !list_lookup_insert_eq by (by eapply lookup_lt_Some). done.
Qed.

(** X5: from a state whose current debtor has the balance [-Infinity] and
    whose current creditor has the balance [Infinity], the matching loop
    never exits: one iteration turns both balances into [NaN], after which
    neither pointer moves. *)
Theorem opposite_infinities_never_settle st debtor creditor :
  debtors st !! i st = Some debtor → creditors st !! j st = Some creditor →
  NetBalance.balance debtor = NegInf → NetBalance.balance creditor = PosInf →
  ∀ fuel, runLoop fuel st = None.
Proof.
  intros Ed Ec Hd Hc fuel.
  destruct (infinities_step st debtor creditor Ed Ec Hd Hc) as (st' & Hstep & Hstuck).
  destruct fuel as [|fuel]; simpl; rewrite Hstep; [done|].
  by apply stuck_forever.
Qed.

Lemma opposite_infinities_never_settle_witness :
  getOptimizedSettlements 100 [Sample.ann; Sample.bob] [SampleMore.lent] [] = None.
Proof.
  apply (opposite_infinities_never_settle _
           (NetBalance.mk "b2" "Bob" NegInf) (NetBalance.mk "a1" "Ann" PosInf));
    by_eval.
Defined.

(** C8 fails on the code.  [createEqual] accepts the amount [Infinity]
    ([Infinity <= 0] is false); with the expense [SampleMore.lent] of that
    amount, paid by Ann for Bob, the net balances are [Infinity] for Ann
    and [-Infinity] for Bob, and the matching loop never exits, whatever
    the fuel: its first iteration moves [min(Infinity, Infinity)], which
    leaves [NaN] in both balances, and no test [|balance| < 0.01] holds of
    [NaN].  [getDetailedDebts] returns on the same input. *)
Theorem optimizer_diverges_on_infinite_amount :
  createEqual (Some Sample.trip) PosInf "a1" ["b2"] None = Normal SampleMore.lent ∧
  netBalances [Sample.ann; Sample.bob] [SampleMore.lent] [] =
    [NetBalance.mk "a1" "Ann" PosInf; NetBalance.mk "b2" "Bob" NegInf] ∧
  (∀ fuel,
     getOptimizedSettlements fuel [Sample.ann; Sample.bob] [SampleMore.lent] [] = None) ∧
  getDetailedDebts [Sample.ann; Sample.bob] [SampleMore.lent] [] =
    Normal [Debt.mk "b2" "Bob" "a1" "Ann" PosInf].
Proof.
  split; [by vm_compute|]. split; [by_eval|]. split; [|by vm_compute].
  intros fuel. unfold getOptimizedSettlements.
  destruct (infinities_step
              (initLoop (netBalances [Sample.ann; Sample.bob] [SampleMore.lent] []))
              (NetBalance.mk "b2" "Bob" NegInf) (NetBalance.mk "a1" "Ann" PosInf))
    as (st' & Hstep & Hstuck); [by_eval..|].
  destruct fuel as [|fuel]; cbn [runLoop]; rewrite Hstep; [done|].
  by apply stuck_forever.
Qed.

End OptimizerDivergence.

(** ** When [getDetailedDebts] throws *)

Section DetailedDebtsThrows.

Implicit Types (ids : list string) (debts : debtMatrix).

#[local] Arguments gt : simpl never.
#[local] Arguments abs : simpl never.
#[local] Arguments sub : simpl never.
#[local] Arguments round2 : simpl never.











End DetailedDebtsThrows.

Section DetailedDebtsAmounts.

#[local] Arguments round2 : simpl never.
#[local] Arguments abs : simpl never.
#[local] Arguments gt : simpl never.
#[local] Arguments le : simpl never.
#[local] Arguments sub : simpl never.

Variable members : list Member.t.

Lemma forEach_invariant {A S : Type} (body : S → A → completion S) (Inv : S → Prop)
    (xs : list A) (s s' : S) :
  (∀ s x s', x ∈ xs → Inv s → body s x = Normal s' → Inv s') →
  Inv s → forEach body xs s = Normal s' → Inv s'.
Proof.
  revert s. induction xs as [|x xs IH]; intros s Hbody Hs; simpl.
  - by intros [= <-].
  - destruct (body s x) as [s1|e] eqn:Ebody; [|done]. simpl.
    apply IH.
    + intros s2 y s3 Hy. apply Hbody. by apply list_elem_of_further.
    + eapply Hbody; [apply list_elem_of_here | done | done].
Qed.

(** The inner loop body pushes nothing or one proper debt. *)
Lemma simplifyPair_proper debts (D C : Member.t) st st' :
  D ∈ members → C ∈ members →
  Forall (properDebt members) (snd st) →
  simplifyPair debts D C st = Normal st' →
  Forall (properDebt members) (snd st').
Proof.
  intros HD HC. destruct st as [processed out]. unfold simplifyPair.
  apply (list_elem_of_fmap_2 Member._id) in HD, HC. fold (memberIds members) in HD, HC.
  case_bool_decide as Hsame; [by intros ? [= <-]|].
  case_bool_decide as Hseen; [by intros ? [= <-]|].
  destruct (readDebt debts (Member._id D) (Member._id C)) as [debtorOwes|]; [|done].
  destruct (readDebt debts (Member._id C) (Member._id D)) as [creditorOwes|]; [|done].
  simpl.
  destruct (gt (abs _) cent) eqn:Habove; [|by intros ? [= <-]].
  destruct (gt _ zero) eqn:Hpos; intros Hout [= <-]; simpl;
    apply Forall_app; (split; [done|]); constructor; try done;
    (split; [done|]); (split; [done|]); (split; [simpl; congruence|]); simpl.
  - by apply round2_at_least_cent, above_cent_of_pos.
  - by apply round2_at_least_cent, above_cent_of_nonpos.
Qed.

(** X7: every debt [getDetailedDebts] returns is between two different
    members and has an amount of at least 0.01: a debt is pushed only for a
    net above 0.01 in absolute value, with the amount rounded from that
    absolute value. *)
Theorem detailed_debts_are_positive expenses settlements simplified :
  getDetailedDebts members expenses settlements = Normal simplified →
  Forall (properDebt members) simplified.
Proof.
  unfold getDetailedDebts.
  destruct (computeDebts members expenses settlements) as [debts|]; [|done].
  simpl. unfold simplifyDebts.
  destruct (forEach _ members (∅, [])) as [st|] eqn:Eloop; [|done].
  simpl. intros [= <-].
  apply (forEach_invariant _ (λ st, Forall (properDebt members) (snd st)) _ _ _) in Eloop;
    [done| |by constructor].
  intros st1 D st2 HD Hst1 Hrow.
  apply (forEach_invariant _ (λ st, Forall (properDebt members) (snd st)) _ _ _) in Hrow;
    [done| |done].
  intros st3 C st4 HC Hst3 Hpair.
  exact (simplifyPair_proper debts D C st3 st4 HD HC Hst3 Hpair).
Qed.

End DetailedDebtsAmounts.

Section DetailedDebtsAmountsWitness.

Lemma detailed_debts_are_positive_witness :
  ∃ simplified,
    getDetailedDebts [Sample.ann; Sample.bob; Sample.cyd] [Sample.dinner]
      [Sample.bobPaysAnn] = Normal simplified ∧
    Forall (properDebt [Sample.ann; Sample.bob; Sample.cyd]) simplified.
Proof.
  eexists. split; [by vm_compute|].
  apply (detailed_debts_are_positive [Sample.ann; Sample.bob; Sample.cyd]
           [Sample.dinner] [Sample.bobPaysAnn]).
  by vm_compute.
Defined.

End DetailedDebtsAmountsWitness.


Section SettledGroup.

#[local] Arguments gt : simpl never.
#[local] Arguments abs : simpl never.
#[local] Arguments round2 : simpl never.

(** X14: when the balance of every member is within 0.01 of zero (in
    particular in a group without members or without records), the plan is
    empty, and the loop does not run at all. *)
Theorem settled_group_needs_no_plan fuel members expenses settlements :
  Forall (λ member,
            (abs (rawBalance expenses settlements (Member._id member)) >? cent)%js = false)
    members →
  getOptimizedSettlements fuel members expenses settlements = Some [].
Proof.
  intros Hsettled. unfold getOptimizedSettlements.
  assert (netBalances members expenses settlements = []) as ->.
  { unfold netBalances. induction Hsettled as [|m members Hm _ IH]; simpl; [done|].
    by rewrite Hm, IH. }
  by destruct fuel.
Qed.

Lemma settled_group_needs_no_plan_witness :
  getOptimizedSettlements 0 [Sample.ann; Sample.bob; Sample.cyd] [Sample.tickets]
    (asSettlement <$> Sample.plan) = Some [].
Proof. apply settled_group_needs_no_plan. by_eval. Defined.

End SettledGroup.
